(** * go-sundheit: the health-check registry of [health.go]

    A shallow embedding of the registry/scheduler of package [gosundheit]
    and the properties of its result bookkeeping.

    The Go methods of [*health] are written in a small state-and-panic
    monad over the record [health].  Goroutines started by
    [scheduleCheck] are kept in the state and advance one loop turn at a
    time; what the timer delivers and what the check's execution does
    are inputs of the turn.

    Two transition systems are given.  In the first ([exec_op]) a call
    of a method and a turn of a goroutine's loop are each one
    transition.  That is exact for what a single critical section does,
    and for calls that nothing interleaves with.  [RegisterCheck] takes
    [h.lock] twice, once to store the initial result and once to store
    the task; the second system ([exec_section]) splits it there, so
    that other calls and turns can come in between, and is the one in
    which the agreement of the two maps is stated. *)

From Stdlib Require Import ZArith Lia.
From stdpp Require Import base option list strings gmap.

Local Open Scope Z_scope.

(** ** Values of the Go program *)

(** [time.Time] and [time.Duration], as integers (nanoseconds). *)
Definition Time := Z.
Definition GoDuration := Z.

(** [interface{}]: the opaque details a check reports, and the value a
    panic carries. *)
Inductive any : Type :=
| anyNil
| anyString (s : string)
| anyInt (z : Z).

(** A non-nil Go [error].  [errorString] stands for the errors built by
    [fmt.Errorf] / [errors.Errorf] and for the errors checks return;
    [marshalableError] is the wrapper stored in a [Result]. *)
Inductive error : Type :=
| errorString (s : string)
| marshalableError (Message : string).

(** [err.Error()] *)
Definition Error_ (e : error) : string :=
  match e with
  | errorString s => s
  | marshalableError m => m
  end.

(** Modelled from the spec: [newMarshalableError] is declared in another
    file of the package.  The error is "wrapped into a marshalable form
    (nil stays nil)", "a plain message, not an implementation-specific
    error object". *)
Definition newMarshalableError (err : option error) : option error :=
  match err with
  | None => None
  | Some e => Some (marshalableError (Error_ e))
  end.

(** Modelled from the spec: the [Result] struct is declared in another
    file of the package; its fields are the ones [updateResult] assigns.
    [ContiguousFailures] is the spec's "count of consecutive failing
    results"; the width of the Go integer is not visible in [health.go],
    so the counter is a mathematical integer.  [TimeOfFirstFailure] is a
    [*time.Time]: [None] is the nil pointer. *)
Record Result : Type := mkResult {
  Details : any;
  Error : option error;
  Timestamp : Time;
  Duration : GoDuration;
  ContiguousFailures : Z;
  TimeOfFirstFailure : option Time
}.

(** Modelled from the spec: [Result.IsHealthy] is declared in another
    file of the package; "IsHealthy(result) := result.error == nil". *)
Definition Result_IsHealthy (r : Result) : bool :=
  match Error r with
  | None => true
  | Some _ => false
  end.

(** The [Check] capability: its name, and its [%v] rendering (used only
    in the text of the configuration error).  What [Execute] returns is
    not a function of the check: it is supplied to each execution. *)
Record Check : Type := mkCheck {
  Name : string;
  Format : string
}.

(** [Config]; [Check = None] is the nil interface. *)
Record Config : Type := mkConfig {
  Check_ : option Check;
  ExecutionPeriod : GoDuration;
  InitialDelay : GoDuration;
  InitiallyPassing : bool
}.

(** [checkTask]: the stop channel (named by its allocation number), the
    ticker ([None] until [scheduleCheck] creates it) and the check. *)
Record checkTask : Type := mkCheckTask {
  stopChan : nat;
  ticker : option GoDuration;
  check : Check
}.

(** Calls received by the listeners, in the order they were made. *)
Inductive CheckEvent : Type :=
| OnCheckRegistered (name : string) (result : Result)
| OnCheckStarted (name : string)
| OnCheckCompleted (name : string) (result : Result).

(** A goroutine started by [scheduleCheck]: the task it owns (a copy of
    the one stored in [checkTasks], as [createCheckTask] returns a
    pointer to its local) and the configuration it was started with. *)
Record goroutine : Type := mkGoroutine {
  g_task : checkTask;
  g_cfg : Config
}.

(** ** The registry state *)

(** The first four fields are the fields of the Go struct [health]; a
    listener is represented by the list of calls it has received.  The
    remaining fields are the part of the Go runtime the methods act on:
    the stop channels holding a buffered value (capacity 1), the number
    of channels made so far, the goroutines started by [scheduleCheck]
    that have not returned, and the value of an unrecovered panic. *)
Record health : Type := mkHealth {
  results : gmap string Result;
  checkTasks : gmap string checkTask;
  checksListener : list CheckEvent;
  healthListener : list (gmap string Result);
  fullChans : gset nat;
  nextChan : nat;
  goroutines : list goroutine;
  crashed : option any
}.

Definition set_results (f : gmap string Result -> gmap string Result) (h : health) : health :=
  mkHealth (f (results h)) (checkTasks h) (checksListener h) (healthListener h)
           (fullChans h) (nextChan h) (goroutines h) (crashed h).

Definition set_checkTasks (f : gmap string checkTask -> gmap string checkTask) (h : health) : health :=
  mkHealth (results h) (f (checkTasks h)) (checksListener h) (healthListener h)
           (fullChans h) (nextChan h) (goroutines h) (crashed h).

Definition set_checksListener (f : list CheckEvent -> list CheckEvent) (h : health) : health :=
  mkHealth (results h) (checkTasks h) (f (checksListener h)) (healthListener h)
           (fullChans h) (nextChan h) (goroutines h) (crashed h).

Definition set_healthListener (f : list (gmap string Result) -> list (gmap string Result))
    (h : health) : health :=
  mkHealth (results h) (checkTasks h) (checksListener h) (f (healthListener h))
           (fullChans h) (nextChan h) (goroutines h) (crashed h).

Definition set_fullChans (f : gset nat -> gset nat) (h : health) : health :=
  mkHealth (results h) (checkTasks h) (checksListener h) (healthListener h)
           (f (fullChans h)) (nextChan h) (goroutines h) (crashed h).

Definition set_nextChan (f : nat -> nat) (h : health) : health :=
  mkHealth (results h) (checkTasks h) (checksListener h) (healthListener h)
           (fullChans h) (f (nextChan h)) (goroutines h) (crashed h).

Definition set_goroutines (f : list goroutine -> list goroutine) (h : health) : health :=
  mkHealth (results h) (checkTasks h) (checksListener h) (healthListener h)
           (fullChans h) (nextChan h) (f (goroutines h)) (crashed h).

Definition set_crashed (v : option any) (h : health) : health :=
  mkHealth (results h) (checkTasks h) (checksListener h) (healthListener h)
           (fullChans h) (nextChan h) (goroutines h) v.

(** ** The monad of Go method bodies *)

(** A call either returns or panics; the state reached is kept in both
    cases. *)
Inductive call (A : Type) : Type :=
| Returned (a : A)
| Panicked (v : any).
Arguments Returned {A} a.
Arguments Panicked {A} v.

Definition go (A : Type) : Type := health -> call A * health.

Definition ret {A} (a : A) : go A := fun h => (Returned a, h).

Definition bind {A B} (m : go A) (k : A -> go B) : go B :=
  fun h =>
    match m h with
    | (Returned a, h') => k a h'
    | (Panicked v, h') => (Panicked v, h')
    end.

Definition panic {A} (v : any) : go A := fun h => (Panicked v, h).
Definition gets {A} (f : health -> A) : go A := fun h => (Returned (f h), h).
Definition modify (f : health -> health) : go unit := fun h => (Returned tt, f h).

Notation "x <- m ;; k" := (bind m (fun x => k))
  (at level 100, m at level 99, k at level 200, right associativity).
Notation "m ;;; k" := (bind m (fun _ => k))
  (at level 100, k at level 200, right associativity).

(** The state a call leaves behind. *)
Definition after {A} (m : go A) (h : health) : health := snd (m h).

(** ** health.go *)

(** Modelled from the spec: the constant [initialResultMsg] is declared
    in another file of the package; the spec calls it the sentinel "not
    yet checked" message. *)
Definition initialResultMsg : string := "not yet checked".

(** [New]: both maps empty.  The options of [New] configure the
    listeners only. *)
Definition New : health :=
  mkHealth ∅ ∅ [] [] ∅ 0%nat [] None.

(** Assignments to the fields of a [Result] variable. *)
Definition set_ContiguousFailures (n : Z) (r : Result) : Result :=
  mkResult (Details r) (Error r) (Timestamp r) (Duration r) n (TimeOfFirstFailure r).

Definition set_TimeOfFirstFailure (p : option Time) (r : Result) : Result :=
  mkResult (Details r) (Error r) (Timestamp r) (Duration r) (ContiguousFailures r) p.

(** [updateResult], lines 180-211.  [ContiguousFailures] is not named in
    the composite literal, so it starts at zero. *)
Definition updateResult (name : string) (details : any) (checkDuration : GoDuration)
    (err : option error) (t : Time) : go Result :=
  prev <- gets (fun h => results h !! name) ;;
  let result := {| Details := details;
                   Error := newMarshalableError err;
                   Timestamp := t;
                   Duration := checkDuration;
                   ContiguousFailures := 0;
                   TimeOfFirstFailure := None |} in
  let result :=
    if negb (Result_IsHealthy result) then
      match prev with
      | Some prevResult =>
          let result :=
            set_ContiguousFailures (ContiguousFailures prevResult + 1) result in
          if Result_IsHealthy prevResult
          then set_TimeOfFirstFailure (Some t) result
          else set_TimeOfFirstFailure (TimeOfFirstFailure prevResult) result
      | None =>
          let result := set_ContiguousFailures 1 result in
          set_TimeOfFirstFailure (Some t) result
      end
    else result in
  modify (set_results (insert name result)) ;;;
  ret result.

(** [createCheckTask], lines 70-81.  [make(chan bool, 1)] takes the next
    channel number; the map receives a copy of the task and the caller
    the task itself.  [cfg.Check.Name()] on a nil check is a nil
    dereference. *)
Definition createCheckTask (cfg : Config) : go checkTask :=
  match Check_ cfg with
  | None => panic (anyString "nil pointer dereference")
  | Some c =>
      ch <- gets nextChan ;;
      modify (set_nextChan S) ;;;
      let task := {| stopChan := ch; ticker := None; check := c |} in
      modify (set_checkTasks (insert (Name c) task)) ;;;
      ret task
  end.

(** [scheduleCheck], lines 95-111: the [go] statement.  The body of the
    goroutine is [scheduleCheck_turn] below. *)
Definition scheduleCheck (task : checkTask) (cfg : Config) : go unit :=
  modify (set_goroutines (fun gs => gs ++ [mkGoroutine task cfg])).

(** [RegisterCheck], lines 53-68; [now] is the value of [time.Now()]. *)
Definition RegisterCheck (cfg : Config) (now : Time) : go (option error) :=
  match Check_ cfg with
  | None => ret (Some (errorString ("misconfigured check " +:+ "<nil>")))
  | Some c =>
      if bool_decide (Name c = "")
      then ret (Some (errorString ("misconfigured check " +:+ Format c)))
      else
        let initialErr :=
          if negb (InitiallyPassing cfg) then Some (errorString initialResultMsg)
          else None in
        result <- updateResult (Name c) (anyString initialResultMsg) 0 initialErr now ;;
        modify (set_checksListener (fun l => l ++ [OnCheckRegistered (Name c) result])) ;;;
        task <- createCheckTask cfg ;;
        scheduleCheck task cfg ;;;
        ret None
  end.

(** [stopCheckTask], lines 83-93.  [task.stop()] (declared in another
    file of the package; the spec: "the ticker (if started) is
    released") touches nothing of the registry, so it leaves no trace in
    the state. *)
Definition stopCheckTask (name : string) : go unit :=
  modify (set_results (delete name)) ;;;
  modify (set_checkTasks (delete name)).

(** Modelled from the spec: [copyResultsMap] is declared in another file
    of the package: "a defensive full copy of the result map". *)
Definition copyResultsMap (m : gmap string Result) : gmap string Result :=
  map_fold (fun k v acc => <[k := v]> acc) ∅ m.

(** [reportResults], lines 113-118. *)
Definition reportResults : go unit :=
  resultsCopy <- gets (fun h => copyResultsMap (results h)) ;;
  modify (set_healthListener (fun l => l ++ [resultsCopy])).

(** What [task.execute()] does in one execution: it returns details, a
    duration and an error (nil when the check passed), or it panics. *)
Definition execution : Type := call (any * GoDuration * option error).

Definition execute (e : execution) : go (any * GoDuration * option error) :=
  fun h => (e, h).

(** [checkAndUpdateResult], lines 131-136. *)
Definition checkAndUpdateResult (task : checkTask) (checkTime : Time) (e : execution)
    : go unit :=
  modify (set_checksListener (fun l => l ++ [OnCheckStarted (Name (check task))])) ;;;
  out <- execute e ;;
  let '(details, duration, err) := out in
  result <- updateResult (Name (check task)) details duration err checkTime ;;
  modify (set_checksListener (fun l => l ++ [OnCheckCompleted (Name (check task)) result])).

(** The case [select] takes in [runCheckOrStop]: the stop channel
    delivered its value, or the timer channel delivered the time [t]
    (and then [task.execute()] behaves as [e]). *)
Inductive select_case : Type :=
| stopCase
| timerCase (t : Time) (e : execution).

(** [runCheckOrStop], lines 120-129.  Receiving from the stop channel
    empties its buffer. *)
Definition runCheckOrStop (task : checkTask) (sel : select_case) : go bool :=
  match sel with
  | stopCase =>
      modify (set_fullChans (fun s => s ∖ {[stopChan task]})) ;;;
      stopCheckTask (Name (check task)) ;;;
      ret false
  | timerCase t e =>
      checkAndUpdateResult task t e ;;;
      ret true
  end.

(** [time.NewTicker(d)] panics unless [d] is positive. *)
Definition NewTicker (d : GoDuration) : go GoDuration :=
  if bool_decide (0 < d) then ret d
  else panic (anyString "non-positive interval for NewTicker").

(** One turn of the goroutine of [scheduleCheck]: lines 98-103 while the
    ticker has not been created, lines 105-108 afterwards.  The result
    is the goroutine as it waits for its next turn, [None] when the
    function returned. *)
Definition scheduleCheck_turn (g : goroutine) (sel : select_case) : go (option goroutine) :=
  continue <- runCheckOrStop (g_task g) sel ;;
  if negb continue then ret None
  else
    reportResults ;;;
    tk <- match ticker (g_task g) with
          | None => NewTicker (ExecutionPeriod (g_cfg g))
          | Some d => ret d
          end ;;
    ret (Some {| g_task := {| stopChan := stopChan (g_task g);
                              ticker := Some tk;
                              check := check (g_task g) |};
                 g_cfg := g_cfg g |}).

(** [Deregister], lines 138-147.  The send on the buffered channel
    fills it.  On a channel that is full the Go send blocks, with the
    read lock held, until the goroutine receives: the definition gives
    the effect of the call once the send can proceed, which is what
    [enabled] says of the state, and it says nothing of a call that
    blocks. *)
Definition Deregister (name : string) : go unit :=
  task <- gets (fun h => checkTasks h !! name) ;;
  match task with
  | Some task => modify (set_fullChans (fun s => {[stopChan task]} ∪ s))
  | None => ret tt
  end.

(** [DeregisterAll], lines 149-156: one send per task of the map.  As
    for [Deregister], each send blocks on a full channel; the definition
    gives the effect of the call when every send can proceed
    ([enabled]). *)
Definition DeregisterAll : go unit :=
  tasks <- gets checkTasks ;;
  modify (set_fullChans (fun s =>
    map_fold (fun _ task acc => {[stopChan task]} ∪ acc) s tasks)).

(** [Results], lines 158-171. *)
Definition Results : go (gmap string Result * bool) :=
  rs <- gets results ;;
  ret (map_fold (fun k v acc => (<[k := v]> (fst acc), snd acc && Result_IsHealthy v))
                (∅, true) rs).

(** Modelled from the spec: [allHealthy] is declared in another file of
    the package.  It is the aggregate of [Results], "AND over all
    results of IsHealthy(result) (vacuously true when empty)", computed
    "without materializing the copy". *)
Definition allHealthy (rs : gmap string Result) : bool :=
  map_fold (fun _ v acc => acc && Result_IsHealthy v) true rs.

(** [IsHealthy], lines 173-178. *)
Definition IsHealthy : go bool :=
  rs <- gets results ;;
  ret (allHealthy rs).

(** ** Runs of the program *)

(** The calls a client makes and the turns the goroutines take. *)
Inductive op : Type :=
| opRegisterCheck (cfg : Config) (now : Time)
| opDeregister (name : string)
| opDeregisterAll
| opResults
| opIsHealthy
| opTurn (i : nat) (sel : select_case).

(** When a transition can be taken: a send needs room in the channel, a
    goroutine must exist, and it takes the stop case only when its stop
    channel holds a value.  A timer eventually fires, so the timer case
    is always possible. *)
Definition enabled (o : op) (h : health) : bool :=
  match o with
  | opRegisterCheck _ _ | opResults | opIsHealthy => true
  | opDeregister name =>
      match checkTasks h !! name with
      | Some task => bool_decide (stopChan task ∉ fullChans h)
      | None => true
      end
  | opDeregisterAll =>
      map_fold (fun _ task acc => acc && bool_decide (stopChan task ∉ fullChans h))
               true (checkTasks h)
  | opTurn i sel =>
      match goroutines h !! i, sel with
      | None, _ => false
      | Some g, stopCase => bool_decide (stopChan (g_task g) ∈ fullChans h)
      | Some g, timerCase _ _ => true
      end
  end.

(** The state after a transition.  A goroutine whose turn panics takes
    the whole program down: nothing recovers in [health.go]. *)
Definition exec_op (o : op) (h : health) : health :=
  match o with
  | opRegisterCheck cfg now => after (RegisterCheck cfg now) h
  | opDeregister name => after (Deregister name) h
  | opDeregisterAll => after DeregisterAll h
  | opResults => after Results h
  | opIsHealthy => after IsHealthy h
  | opTurn i sel =>
      match goroutines h !! i with
      | None => h
      | Some g =>
          match scheduleCheck_turn g sel h with
          | (Returned (Some g'), h') => set_goroutines (fun gs => <[i := g']> gs) h'
          | (Returned None, h') => set_goroutines (fun gs => delete i gs) h'
          | (Panicked v, h') => set_crashed (Some v) (set_goroutines (fun _ => []) h')
          end
      end
  end.

(** States reached from [New] by transitions that satisfy [guard]; a
    crashed program takes no further transition. *)
Inductive reachable_if (guard : op -> health -> bool) : health -> Prop :=
| reach_New : reachable_if guard New
| reach_step h o :
    reachable_if guard h ->
    crashed h = None ->
    enabled o h = true ->
    guard o h = true ->
    reachable_if guard (exec_op o h).

Definition unguarded (o : op) (h : health) : bool := true.

Definition reachable : health -> Prop := reachable_if unguarded.

(** The transition registers no name that [checkTasks] already holds. *)
Definition registers_fresh (o : op) (h : health) : bool :=
  match o with
  | opRegisterCheck cfg _ =>
      match Check_ cfg with
      | Some c =>
          match checkTasks h !! Name c with
          | None => true
          | Some _ => false
          end
      | None => true
      end
  | _ => true
  end.

Definition reachable_fresh : health -> Prop := reachable_if registers_fresh.

(** The state after a list of transitions, oldest first. *)
Definition run (os : list op) (h : health) : health :=
  fold_left (fun h o => exec_op o h) os h.

(** A run is valid when every transition is enabled, and allowed by
    [guard], in a state that has not crashed. *)
Fixpoint valid_run (guard : op -> health -> bool) (os : list op) (h : health) : bool :=
  match os with
  | [] => true
  | o :: os' =>
      match crashed h with
      | None => enabled o h && guard o h && valid_run guard os' (exec_op o h)
      | Some _ => false
      end
  end.

(** ** Vocabulary of the properties *)

(** The invariant of the spec's data model. *)
Definition Result_invariant (r : Result) : Prop :=
  (0 < ContiguousFailures r <-> Error r <> None) /\
  (Error r <> None <-> TimeOfFirstFailure r <> None).

(** The invariant together with the sign of the counter. *)
Definition Result_wf (r : Result) : Prop :=
  0 <= ContiguousFailures r /\ Result_invariant r.

Definition results_wf (h : health) : Prop :=
  forall name r, results h !! name = Some r -> Result_wf r.


(** The check a goroutine runs is known by its name. *)
Definition loop_name (g : goroutine) : string := Name (check (g_task g)).

(** The shape of a transition, seen from the two maps and the
    goroutines: it leaves the maps alone; it registers a name (a result
    of [updateResult], a task and a new goroutine); a goroutine stores
    the result of an execution; or a goroutine stops and deletes its
    name from both maps. *)
Inductive transition (o : op) (h h' : health) : Prop :=
| transition_none :
    results h' = results h ->
    checkTasks h' = checkTasks h ->
    nextChan h' = nextChan h ->
    (crashed h' = None -> goroutines h' = goroutines h) ->
    transition o h h'
| transition_register cfg now g details cd err t r hr :
    o = opRegisterCheck cfg now ->
    Check_ cfg = Some (check (g_task g)) ->
    updateResult (loop_name g) details cd err t h = (Returned r, hr) ->
    results h' = <[loop_name g := r]> (results h) ->
    checkTasks h' = <[loop_name g := g_task g]> (checkTasks h) ->
    stopChan (g_task g) = nextChan h ->
    nextChan h' = S (nextChan h) ->
    goroutines h' = goroutines h ++ [g] ->
    crashed h' = crashed h ->
    transition o h h'
| transition_update i g details cd err t r h0 hr :
    goroutines h !! i = Some g ->
    results h0 = results h ->
    updateResult (loop_name g) details cd err t h0 = (Returned r, hr) ->
    results h' = <[loop_name g := r]> (results h) ->
    checkTasks h' = checkTasks h ->
    nextChan h' = nextChan h ->
    (crashed h' = None ->
     exists g', loop_name g' = loop_name g /\ goroutines h' = <[i := g']> (goroutines h)) ->
    transition o h h'
| transition_stop i g :
    goroutines h !! i = Some g ->
    results h' = delete (loop_name g) (results h) ->
    checkTasks h' = delete (loop_name g) (checkTasks h) ->
    nextChan h' = nextChan h ->
    goroutines h' = delete i (goroutines h) ->
    crashed h' = crashed h ->
    transition o h h'.

(** The names with a task, the names with a result and the names of the
    running loops coincide, and no two loops run the same name. *)
Definition names_agree (h : health) : Prop :=
  dom (results h) = dom (checkTasks h) /\
  (crashed h = None ->
   NoDup (loop_name <$> goroutines h) /\
   dom (checkTasks h) = list_to_set (loop_name <$> goroutines h)).

(** Every stop channel in use was made before [nextChan]. *)
Definition chans_made (h : health) : Prop :=
  forall name task, checkTasks h !! name = Some task -> (stopChan task < nextChan h)%nat.

(** One outcome handed to [updateResult]: the check's name, and what
    the execution (or the registration) reported at time [o_time]. *)
Record outcome : Type := mkOutcome {
  o_name : string;
  o_details : any;
  o_duration : GoDuration;
  o_err : option error;
  o_time : Time
}.

Definition record_outcome (o : outcome) : go Result :=
  updateResult (o_name o) (o_details o) (o_duration o) (o_err o) (o_time o).

(** The outcomes of [os] recorded one after the other, oldest first. *)
Definition record_all (os : list outcome) (h : health) : health :=
  fold_left (fun h o => after (record_outcome o) h) os h.

Definition failing (o : outcome) : Prop := o_err o <> None.

(** The failures at the end of a sequence of outcomes: a healthy outcome
    empties the streak, a failing one extends it. *)
Definition streak_step (s : list outcome) (o : outcome) : list outcome :=
  match o_err o with
  | None => []
  | Some _ => s ++ [o]
  end.

Definition streak (os : list outcome) : list outcome := fold_left streak_step os [].

(** The result stored for [name] in [m] carries the streak of the
    outcomes [ns] recorded for that name: no result when nothing was
    recorded, otherwise the length of the streak, the time of its first
    outcome, and a nil error exactly when the streak is empty. *)
Definition carries (name : string) (m : gmap string Result) (ns : list outcome) : Prop :=
  match m !! name with
  | None => ns = []
  | Some r =>
      ns <> [] /\
      ContiguousFailures r = Z.of_nat (length (streak ns)) /\
      TimeOfFirstFailure r = o_time <$> head (streak ns) /\
      (Error r = None <-> streak ns = [])
  end.

(** The outcomes a transition hands to [updateResult]: the initial
    result of a registration, the outcome of an execution that
    returned. *)
Definition outcomes_of (o : op) (h : health) : list outcome :=
  match o with
  | opRegisterCheck cfg now =>
      match Check_ cfg with
      | Some c =>
          if bool_decide (Name c = "") then []
          else [mkOutcome (Name c) (anyString initialResultMsg) 0
                  (if negb (InitiallyPassing cfg) then Some (errorString initialResultMsg)
                   else None)
                  now]
      | None => []
      end
  | opTurn i (timerCase t (Returned (details, cd, err))) =>
      match goroutines h !! i with
      | Some g => [mkOutcome (loop_name g) details cd err t]
      | None => []
      end
  | _ => []
  end.

(** The name a transition deletes from the maps, if any. *)
Definition stopped_by (o : op) (h : health) : option string :=
  match o with
  | opTurn i stopCase => loop_name <$> goroutines h !! i
  | _ => None
  end.

(** The outcomes recorded for [name] during a run since the name was
    last deleted, given those recorded before the run. *)
Fixpoint history (name : string) (os : list op) (h : health) (acc : list outcome)
    : list outcome :=
  match os with
  | [] => acc
  | o :: os' =>
      history name os' (exec_op o h)
        (if bool_decide (stopped_by o h = Some name) then []
         else acc ++ filter (fun x => o_name x = name) (outcomes_of o h))
  end.

(** ** Example inputs *)

Definition checkA : Check := mkCheck "A" "checkA".
Definition checkC : Check := mkCheck "C" "checkC".

(** Check A every 10ns, initially failing. *)
Definition cfgA : Config := mkConfig (Some checkA) 10 0 false.
(** The same check, initially passing. *)
Definition cfgA_passing : Config := mkConfig (Some checkA) 10 0 true.
Definition cfgC_passing : Config := mkConfig (Some checkC) 10 0 true.
(** A configuration without a check, and one whose check has no name. *)
Definition cfg_nil : Config := mkConfig None 10 0 false.
Definition cfg_unnamed : Config := mkConfig (Some (mkCheck "" "anonymous")) 10 0 false.

(** An execution that fails with "boom", one that passes, one that
    panics. *)
Definition boom : execution := Returned (anyString "down", 3, Some (errorString "boom")).
Definition fine : execution := Returned (anyString "up", 3, None).
Definition fault : execution := Panicked (anyString "index out of range").

(** Outcomes of A (fail, pass, fail, fail) with one of C in between. *)
Definition outcomes_pre : list outcome :=
  [mkOutcome "A" (anyString "down") 3 (Some (errorString "boom")) 10;
   mkOutcome "A" (anyString "up") 3 None 20].
Definition outcomes_suf : list outcome :=
  [mkOutcome "A" (anyString "down") 3 (Some (errorString "boom")) 40;
   mkOutcome "A" (anyString "down") 3 (Some (errorString "boom")) 50].
Definition outcomes_example : list outcome :=
  outcomes_pre ++
  [mkOutcome "C" (anyString "down") 3 (Some (errorString "bang")) 30] ++
  outcomes_suf.

(** A registered at time 100, executed (failing) at time 110. *)
Definition run_A_failing : list op :=
  [opRegisterCheck cfgA 100; opTurn 0 (timerCase 110 boom)].

(** A registered twice, the second registration deregistered and its
    goroutine stopped, then the first goroutine executes once more. *)
Definition run_A_twice : list op :=
  [opRegisterCheck cfgA_passing 100;
   opRegisterCheck cfgA_passing 101;
   opDeregister "A";
   opTurn 1 stopCase;
   opTurn 0 (timerCase 110 fine)].

(** Two checks registered once each, C deregistered and stopped. *)
Definition run_A_and_C : list op :=
  [opRegisterCheck cfgA 100;
   opRegisterCheck cfgC_passing 101;
   opTurn 0 (timerCase 110 boom);
   opDeregister "C";
   opTurn 1 stopCase].

(** A registered, deregistered, and registered again before the first
    goroutine has taken its stop case; then that goroutine stops, and
    the second one executes. *)
Definition run_A_again : list op :=
  [opRegisterCheck cfgA_passing 100;
   opDeregister "A";
   opRegisterCheck cfgA_passing 101;
   opTurn 0 stopCase;
   opTurn 0 (timerCase 110 fine)].

(** The claim that both maps hold the same names in state [h]. *)
Definition same_names (h : health) : Prop := dom (results h) = dom (checkTasks h).

(** The claim that a fault of the execution at time [t] is contained:
    the goroutine's turn returns and goes on to its next turn, and a
    failing result of that execution is stored for the check. *)
Definition fault_contained (g : goroutine) (t : Time) (v : any) (h : health) : Prop :=
  exists g' h' r,
    scheduleCheck_turn g (timerCase t (Panicked v)) h = (Returned (Some g'), h') /\
    results h' !! loop_name g = Some r /\
    Error r <> None /\
    Timestamp r = t.

(** The goroutine of check A, and the registry after A was registered
    as initially passing. *)
Definition goroutineA : goroutine := mkGoroutine (mkCheckTask 0 None checkA) cfgA_passing.
Definition registered_A_passing : health := run [opRegisterCheck cfgA_passing 100] New.

(** ** Vocabulary of the further properties *)

(** Everything a transition does to the state, case by case: nothing
    to the maps and the goroutines; a registration; an execution that
    went through; a stop; a panic that takes the program down. *)
Inductive effect (o : op) (h h' : health) : Prop :=
| effect_idle :
    results h' = results h ->
    checkTasks h' = checkTasks h ->
    nextChan h' = nextChan h ->
    goroutines h' = goroutines h ->
    crashed h' = crashed h ->
    checksListener h' = checksListener h ->
    healthListener h' = healthListener h ->
    effect o h h'
| effect_register cfg now c r :
    o = opRegisterCheck cfg now ->
    Check_ cfg = Some c ->
    Name c <> "" ->
    results h' = <[Name c := r]> (results h) ->
    checkTasks h' = <[Name c := mkCheckTask (nextChan h) None c]> (checkTasks h) ->
    fullChans h' = fullChans h ->
    nextChan h' = S (nextChan h) ->
    goroutines h' = goroutines h ++ [mkGoroutine (mkCheckTask (nextChan h) None c) cfg] ->
    crashed h' = crashed h ->
    effect o h h'
| effect_execute i g g' r t e :
    o = opTurn i (timerCase t e) ->
    goroutines h !! i = Some g ->
    results h' = <[loop_name g := r]> (results h) ->
    checkTasks h' = checkTasks h ->
    fullChans h' = fullChans h ->
    nextChan h' = nextChan h ->
    goroutines h' = <[i := g']> (goroutines h) ->
    check (g_task g') = check (g_task g) ->
    stopChan (g_task g') = stopChan (g_task g) ->
    crashed h' = crashed h ->
    effect o h h'
| effect_stop i g :
    o = opTurn i stopCase ->
    goroutines h !! i = Some g ->
    results h' = delete (loop_name g) (results h) ->
    checkTasks h' = delete (loop_name g) (checkTasks h) ->
    fullChans h' = fullChans h ∖ {[stopChan (g_task g)]} ->
    nextChan h' = nextChan h ->
    goroutines h' = delete i (goroutines h) ->
    crashed h' = crashed h ->
    checksListener h' = checksListener h ->
    healthListener h' = healthListener h ->
    effect o h h'
| effect_crash i g t e v :
    o = opTurn i (timerCase t e) ->
    goroutines h !! i = Some g ->
    crashed h' = Some v ->
    goroutines h' = [] ->
    checkTasks h' = checkTasks h ->
    (results h' = results h \/ exists r, results h' = <[loop_name g := r]> (results h)) ->
    effect o h h'.


(** No channel holds a value that was not made. *)
Definition full_chans_made (h : health) : Prop :=
  forall c, c ∈ fullChans h -> (c < nextChan h)%nat.

(** The transition is a successful registration of [name]. *)
Definition registers_name (name : string) (o : op) : bool :=
  match o with
  | opRegisterCheck cfg _ =>
      match Check_ cfg with
      | Some c => bool_decide (Name c = name)
      | None => false
      end
  | _ => false
  end.

(** No result and no goroutine for [name]. *)
Definition gone (name : string) (h : health) : Prop :=
  results h !! name = None /\ forall g, g ∈ goroutines h -> loop_name g <> name.

(** ** Example inputs of the further properties *)

(** The registry after A was registered (initially failing) and failed
    its first execution. *)
Definition executed_A_failing : health := run run_A_failing New.

(** A failing and C passing, A executed once, C deregistered but its
    goroutine not yet stopped. *)
Definition run_C_deregistered : list op :=
  [opRegisterCheck cfgA 100;
   opRegisterCheck cfgC_passing 101;
   opTurn 0 (timerCase 110 boom);
   opDeregister "C"].

Definition goroutineC : goroutine := mkGoroutine (mkCheckTask 1 None checkC) cfgC_passing.

(** What happens after C has stopped: A executes again and a client
    tries a registration without a check. *)
Definition run_after_stop : list op :=
  [opTurn 0 (timerCase 120 boom); opRegisterCheck cfg_nil 130].

(** Check A with an execution period of zero. *)
Definition cfgA_period0 : Config := mkConfig (Some checkA) 0 0 true.

(** How a turn ends once its execution has returned: the goroutine
    waits for the next tick of its ticker, which the first turn has to
    create. *)
Definition turn_end (g : goroutine) : call (option goroutine) :=
  let waiting d :=
    Returned (Some (mkGoroutine (mkCheckTask (stopChan (g_task g)) (Some d) (check (g_task g)))
                                (g_cfg g))) in
  match ticker (g_task g) with
  | Some d => waiting d
  | None =>
      if bool_decide (0 < ExecutionPeriod (g_cfg g))
      then waiting (ExecutionPeriod (g_cfg g))
      else Panicked (anyString "non-positive interval for NewTicker")
  end.

(** The clock readings of a sequence of outcomes never go back. *)
Definition times_ascend (ns : list outcome) : Prop :=
  forall i j oi oj,
    (i <= j)%nat -> ns !! i = Some oi -> ns !! j = Some oj -> o_time oi <= o_time oj.

(** The result stored for [name] is dated by the last of the outcomes
    [ns] and its streak did not start after that. *)
Definition dated (name : string) (m : gmap string Result) (ns : list outcome) : Prop :=
  match m !! name with
  | None => ns = []
  | Some r =>
      o_time <$> last ns = Some (Timestamp r) /\
      forall tf, TimeOfFirstFailure r = Some tf -> tf <= Timestamp r
  end.

(** ** Package [opencencus]: the options of the check listener *)

(** The [CheckListener] struct is declared in another file of the
    package; the options below assign its field [classification] and no
    other, so the record keeps that field. *)
Record CheckListener : Type := mkCheckListener {
  classification : string
}.

(** [Option] is a function on a pointer to a [CheckListener]: an option
    updates the listener it is given. *)
Definition Option : Type := CheckListener -> CheckListener.

Definition WithClassification (c : string) : Option :=
  fun listener => {| classification := c |}.

Definition WithLivenessClassification : Option :=
  fun listener => {| classification := "liveness" |}.

Definition WithReadinessClassification : Option :=
  fun listener => {| classification := "readiness" |}.

Definition WithSetupClassification : Option :=
  fun listener => {| classification := "setup" |}.

(** [for _, opt := range opts { opt(listener) }] *)
Definition apply_options (opts : list Option) (listener : CheckListener) : CheckListener :=
  fold_left (fun l opt => opt l) opts listener.

(** [WithDefaults] ranges over an empty slice of options. *)
Definition WithDefaults : Option :=
  fun listener => apply_options [] listener.

(** The options this file can build, and the classification each one
    sets ([None] for [WithDefaults]). *)
Inductive option_call : Type :=
| callWithClassification (c : string)
| callWithLivenessClassification
| callWithReadinessClassification
| callWithSetupClassification
| callWithDefaults.

Definition build (o : option_call) : Option :=
  match o with
  | callWithClassification c => WithClassification c
  | callWithLivenessClassification => WithLivenessClassification
  | callWithReadinessClassification => WithReadinessClassification
  | callWithSetupClassification => WithSetupClassification
  | callWithDefaults => WithDefaults
  end.

Definition classification_set (o : option_call) : option string :=
  match o with
  | callWithClassification c => Some c
  | callWithLivenessClassification => Some "liveness"
  | callWithReadinessClassification => Some "readiness"
  | callWithSetupClassification => Some "setup"
  | callWithDefaults => None
  end.

(** The transition is a registration that succeeds. *)
Definition registers (o : op) : bool :=
  match o with
  | opRegisterCheck cfg _ =>
      match Check_ cfg with
      | Some c => negb (bool_decide (Name c = ""))
      | None => false
      end
  | _ => false
  end.

(** A registry without checks, goroutines or pending stops. *)
Definition idle (h : health) : Prop :=
  results h = ∅ /\ checkTasks h = ∅ /\ goroutines h = [] /\ fullChans h = ∅ /\
  crashed h = None.

(** Calls and turns on a registry that never registered a check. *)
Definition run_without_checks : list op :=
  [opDeregister "A"; opDeregisterAll; opTurn 0 stopCase;
   opRegisterCheck cfg_nil 1; opRegisterCheck cfg_unnamed 2;
   opTurn 0 (timerCase 3 boom); opIsHealthy; opResults].

(** The transition is a call of [Deregister] or [DeregisterAll]. *)
Definition deregisters (o : op) : bool :=
  match o with
  | opDeregister _ | opDeregisterAll => true
  | _ => false
  end.

(** After A failed once: A executes again and C is registered. *)
Definition run_more_checks : list op :=
  [opTurn 0 (timerCase 120 fine); opRegisterCheck cfgC_passing 130].

(** ** Executions alone *)

(** The outcomes of executions: what [checkAndUpdateResult] hands to
    [updateResult].  A registration is not an execution. *)
Definition executions_of (o : op) (h : health) : list outcome :=
  match o with
  | opTurn i (timerCase t (Returned (details, cd, err))) =>
      match goroutines h !! i with
      | Some g => [mkOutcome (loop_name g) details cd err t]
      | None => []
      end
  | _ => []
  end.

(** The execution outcomes of [name] during a run since the name was
    last deleted. *)
Fixpoint execution_history (name : string) (os : list op) (h : health) (acc : list outcome)
    : list outcome :=
  match os with
  | [] => acc
  | o :: os' =>
      execution_history name os' (exec_op o h)
        (if bool_decide (stopped_by o h = Some name) then []
         else acc ++ filter (fun x => o_name x = name) (executions_of o h))
  end.

(** The claim that after the run [os] the result stored for [name]
    carries the maximal failing suffix of the execution outcomes of
    that name. *)
Definition streak_of_executions (name : string) (os : list op) : Prop :=
  forall r pre suf,
    results (run os New) !! name = Some r ->
    execution_history name os New [] = pre ++ suf ->
    Forall failing suf ->
    (forall o, last pre = Some o -> o_err o = None) ->
    ContiguousFailures r = Z.of_nat (length suf) /\
    TimeOfFirstFailure r = o_time <$> head suf.

(** The initial result of A's registration at time 100 and the failing
    execution at time 110, as outcomes. *)
Definition outcome_registered_A : outcome :=
  mkOutcome "A" (anyString initialResultMsg) 0 (Some (errorString initialResultMsg)) 100.
Definition outcome_boom_A : outcome :=
  mkOutcome "A" (anyString "down") 3 (Some (errorString "boom")) 110.

(** ** The program, one critical section at a time *)

(** [RegisterCheck] takes [h.lock] in [updateResult] and again in
    [createCheckTask], and a goroutine takes it in [updateResult] (or
    [stopCheckTask]) and again in [reportResults].  Below, every step
    holds one acquisition of the lock.  What a function does outside the
    lock (notifying a listener, executing the check, receiving from the
    stop channel) is put with the acquisition next to it: none of it
    reads or writes the two maps. *)

(** Lines 54-65: the validation, the initial result stored by
    [updateResult] under the lock, and the notification of the
    listener. *)
Definition RegisterCheck_result (cfg : Config) (now : Time) : go (option error) :=
  match Check_ cfg with
  | None => ret (Some (errorString ("misconfigured check " +:+ "<nil>")))
  | Some c =>
      if bool_decide (Name c = "")
      then ret (Some (errorString ("misconfigured check " +:+ Format c)))
      else
        let initialErr :=
          if negb (InitiallyPassing cfg) then Some (errorString initialResultMsg)
          else None in
        result <- updateResult (Name c) (anyString initialResultMsg) 0 initialErr now ;;
        modify (set_checksListener (fun l => l ++ [OnCheckRegistered (Name c) result])) ;;;
        ret None
  end.

(** Lines 101 and 103, or 108 on later turns: [reportResults] and, on
    the first turn, the creation of the ticker.  The result is the
    goroutine as it waits for its next turn. *)
Definition scheduleCheck_report (g : goroutine) : go goroutine :=
  reportResults ;;;
  tk <- match ticker (g_task g) with
        | None => NewTicker (ExecutionPeriod (g_cfg g))
        | Some d => ret d
        end ;;
  ret {| g_task := {| stopChan := stopChan (g_task g);
                      ticker := Some tk;
                      check := check (g_task g) |};
         g_cfg := g_cfg g |}.

(** The program between critical sections.  The goroutines of the
    registry are those waiting in [select]; besides them there are the
    calls of [RegisterCheck] that have stored their result and not yet
    their task ([registering]), those that have stored their task and
    not yet started their goroutine ([scheduling], the task and the
    configuration the goroutine will get), and the goroutines that have
    stored the result of an execution and not yet reported
    ([reporting]). *)
Record program : Type := mkProgram {
  registry : health;
  registering : list Config;
  scheduling : list goroutine;
  reporting : list goroutine
}.

Definition set_registry (f : health -> health) (p : program) : program :=
  mkProgram (f (registry p)) (registering p) (scheduling p) (reporting p).

(** A panic takes the whole program down. *)
Definition crash (v : any) (h : health) : health :=
  set_crashed (Some v) (set_goroutines (fun _ => []) h).

(** The steps: the first part of a call of [RegisterCheck];
    [createCheckTask] of the [k]-th registration in progress; the [go]
    statement of the [k]-th task made; [runCheckOrStop] of the [i]-th
    waiting goroutine; the report of the [k]-th goroutine that has
    executed; and a call of [Deregister], [DeregisterAll], [Results] or
    [IsHealthy], each of which takes the lock once. *)
Inductive section_op : Type :=
| soRegisterResult (cfg : Config) (now : Time)
| soCreateTask (k : nat)
| soGo (k : nat)
| soSelect (i : nat) (sel : select_case)
| soReport (k : nat)
| soCall (o : op).

Definition exec_section (so : section_op) (p : program) : program :=
  match so with
  | soRegisterResult cfg now =>
      match RegisterCheck_result cfg now (registry p) with
      | (Returned None, h') =>
          mkProgram h' (registering p ++ [cfg]) (scheduling p) (reporting p)
      | (Returned (Some _), h') => set_registry (fun _ => h') p
      | (Panicked v, h') => set_registry (fun _ => crash v h') p
      end
  | soCreateTask k =>
      match registering p !! k with
      | Some cfg =>
          match createCheckTask cfg (registry p) with
          | (Returned task, h') =>
              mkProgram h' (delete k (registering p))
                        (scheduling p ++ [mkGoroutine task cfg]) (reporting p)
          | (Panicked v, h') => set_registry (fun _ => crash v h') p
          end
      | None => p
      end
  | soGo k =>
      match scheduling p !! k with
      | Some g =>
          mkProgram (after (scheduleCheck (g_task g) (g_cfg g)) (registry p))
                    (registering p) (delete k (scheduling p)) (reporting p)
      | None => p
      end
  | soSelect i sel =>
      match goroutines (registry p) !! i with
      | Some g =>
          match runCheckOrStop (g_task g) sel (registry p) with
          | (Returned true, h') =>
              mkProgram (set_goroutines (fun gs => delete i gs) h')
                        (registering p) (scheduling p) (reporting p ++ [g])
          | (Returned false, h') =>
              set_registry (fun _ => set_goroutines (fun gs => delete i gs) h') p
          | (Panicked v, h') => set_registry (fun _ => crash v h') p
          end
      | None => p
      end
  | soReport k =>
      match reporting p !! k with
      | Some g =>
          match scheduleCheck_report g (registry p) with
          | (Returned g', h') =>
              mkProgram (set_goroutines (fun gs => gs ++ [g']) h')
                        (registering p) (scheduling p) (delete k (reporting p))
          | (Panicked v, h') => set_registry (fun _ => crash v h') p
          end
      | None => p
      end
  | soCall o =>
      match o with
      | opRegisterCheck _ _ | opTurn _ _ => p
      | _ => set_registry (exec_op o) p
      end
  end.

(** The name a call in progress is registering. *)
Definition registering_name (cfg : Config) : string :=
  match Check_ cfg with
  | Some c => Name c
  | None => ""
  end.

(** The discipline under which the maps agree: [RegisterCheck] is not
    called for a name that has a task or that another call is
    registering. *)
Definition registers_unused (so : section_op) (p : program) : bool :=
  match so with
  | soRegisterResult cfg _ =>
      match Check_ cfg with
      | Some c =>
          match checkTasks (registry p) !! Name c with
          | Some _ => false
          | None => bool_decide (Name c ∉ registering_name <$> registering p)
          end
      | None => true
      end
  | _ => true
  end.

(** Programs reached from [New], one critical section at a time, by
    steps that satisfy [guard]; a crashed program takes no further step.
    The relation does not ask that a send can proceed or that a stop
    channel holds a value: no step reads the channels to decide what it
    does to the maps, so this only adds programs, among them those in
    which a call is blocked at a send having changed nothing yet. *)
Inductive reachable_sections (guard : section_op -> program -> bool) : program -> Prop :=
| sections_New : reachable_sections guard (mkProgram New [] [] [])
| sections_step p so :
    reachable_sections guard p ->
    crashed (registry p) = None ->
    guard so p = true ->
    reachable_sections guard (exec_section so p).

(** The program [New] leaves. *)
Definition program_New : program := mkProgram New [] [] [].

(** Any interleaving. *)
Definition any_section (so : section_op) (p : program) : bool := true.

Definition run_sections (sos : list section_op) (p : program) : program :=
  fold_left (fun p so => exec_section so p) sos p.

(** When a step can be taken, as [enabled] has it for whole calls and
    turns. *)
Definition section_enabled (so : section_op) (p : program) : bool :=
  match so with
  | soRegisterResult _ _ => true
  | soCreateTask k => bool_decide (is_Some (registering p !! k))
  | soGo k => bool_decide (is_Some (scheduling p !! k))
  | soSelect i sel => enabled (opTurn i sel) (registry p)
  | soReport k => bool_decide (is_Some (reporting p !! k))
  | soCall o =>
      match o with
      | opRegisterCheck _ _ | opTurn _ _ => false
      | _ => enabled o (registry p)
      end
  end.

(** A run of sections is valid when every step can be taken, and is
    allowed by [guard], in a program that has not crashed. *)
Fixpoint valid_sections (guard : section_op -> program -> bool) (sos : list section_op)
    (p : program) : bool :=
  match sos with
  | [] => true
  | so :: sos' =>
      match crashed (registry p) with
      | None =>
          section_enabled so p && guard so p && valid_sections guard sos' (exec_section so p)
      | Some _ => false
      end
  end.

(** The goroutines of the program, started or about to be. *)
Definition running (p : program) : list goroutine :=
  goroutines (registry p) ++ reporting p ++ scheduling p.

(** What holds between critical sections under the discipline: the
    names with a result are those with a task and those being
    registered; these do not overlap; and the names with a task are
    those of the goroutines, no two of which run the same name. *)
Definition names_accounted (p : program) : Prop :=
  dom (results (registry p))
    = dom (checkTasks (registry p)) ∪ list_to_set (registering_name <$> registering p) /\
  NoDup (registering_name <$> registering p) /\
  (forall n, n ∈ registering_name <$> registering p -> n ∉ dom (checkTasks (registry p))) /\
  (forall cfg, cfg ∈ registering p -> exists c, Check_ cfg = Some c) /\
  (crashed (registry p) = None ->
   NoDup (loop_name <$> running p) /\
   dom (checkTasks (registry p)) = list_to_set (loop_name <$> running p)).

(** The three steps of a call of [RegisterCheck] that nothing
    interleaves with. *)
Definition sections_RegisterCheck (cfg : Config) (now : Time) (p : program)
    : list section_op :=
  [soRegisterResult cfg now; soCreateTask (length (registering p));
   soGo (length (scheduling p))].

(** A is registered; C's registration stores its result; A executes and
    reports; C's registration is still in progress. *)
Definition sections_A_then_C : list section_op :=
  [soRegisterResult cfgA 100; soCreateTask 0; soGo 0;
   soRegisterResult cfgC_passing 101;
   soSelect 0 (timerCase 110 boom); soReport 0].

(** A is registered, then deregistered; a second registration of A
    stores its result; the first goroutine takes its stop case; only
    then the second registration stores its task and starts its
    goroutine. *)
Definition sections_A_reregistered : list section_op :=
  [soRegisterResult cfgA_passing 100; soCreateTask 0; soGo 0;
   soCall (opDeregister "A");
   soRegisterResult cfgA_passing 101;
   soSelect 0 stopCase;
   soCreateTask 0; soGo 0].
(** ** What [updateResult] computes *)

Lemma newMarshalableError_nil err : newMarshalableError err = None <-> err = None.
Proof. destruct err; simpl; split; congruence. Qed.

Lemma Result_IsHealthy_nil r : Result_IsHealthy r = true <-> Error r = None.
Proof. unfold Result_IsHealthy. destruct (Error r); split; congruence. Qed.

Lemma Result_IsHealthy_false r : Result_IsHealthy r = false <-> Error r <> None.
Proof. unfold Result_IsHealthy. destruct (Error r); split; congruence. Qed.

Lemma updateResult_healthy name details cd t h :
  updateResult name details cd None t h =
  (Returned (mkResult details None t cd 0 None),
   set_results (insert name (mkResult details None t cd 0 None)) h).
Proof. reflexivity. Qed.

Lemma updateResult_first name details cd e t h :
  results h !! name = None ->
  let r := mkResult details (Some (marshalableError (Error_ e))) t cd 1 (Some t) in
  updateResult name details cd (Some e) t h = (Returned r, set_results (insert name r) h).
Proof.
  intros Hnone. unfold updateResult, bind, gets, modify, ret. simpl.
  rewrite Hnone. reflexivity.
Qed.

Lemma updateResult_next name details cd e t h prev :
  results h !! name = Some prev ->
  let r := mkResult details (Some (marshalableError (Error_ e))) t cd
             (ContiguousFailures prev + 1)
             (if Result_IsHealthy prev then Some t else TimeOfFirstFailure prev) in
  updateResult name details cd (Some e) t h = (Returned r, set_results (insert name r) h).
Proof.
  intros Hprev. unfold updateResult, bind, gets, modify, ret. simpl.
  rewrite Hprev. by destruct (Result_IsHealthy prev).
Qed.

(** [updateResult] always returns, and stores what it returns. *)
Lemma updateResult_returns name details cd err t h :
  exists r, updateResult name details cd err t h = (Returned r, set_results (insert name r) h)
            /\ Error r = newMarshalableError err /\ Timestamp r = t.
Proof.
  destruct err as [e|].
  - destruct (results h !! name) as [prev|] eqn:Hprev.
    + eexists. split; [apply (updateResult_next _ _ _ _ _ _ _ Hprev)|]. split; reflexivity.
    + eexists. split; [apply (updateResult_first _ _ _ _ _ _ Hprev)|]. split; reflexivity.
  - eexists. split; [apply updateResult_healthy|]. split; reflexivity.
Qed.

Lemma updateResult_wf name details cd err t h r h' :
  results_wf h ->
  updateResult name details cd err t h = (Returned r, h') ->
  Result_wf r.
Proof.
  intros Hwf Hrun. destruct err as [e|].
  - destruct (results h !! name) as [prev|] eqn:Hprev.
    + rewrite (updateResult_next _ _ _ _ _ _ _ Hprev) in Hrun.
      injection Hrun as <- _.
      destruct (Hwf _ _ Hprev) as (Hpos & Hcf & Htf).
      unfold Result_wf, Result_invariant; simpl.
      split; [lia|]. split.
      * split; [congruence | lia].
      * split; [|congruence]. intros _.
        destruct (Result_IsHealthy prev) eqn:Hh; [congruence|].
        apply Htf. by apply Result_IsHealthy_false.
    + rewrite (updateResult_first _ _ _ _ _ _ Hprev) in Hrun.
      injection Hrun as <- _.
      unfold Result_wf, Result_invariant; simpl.
      split; [lia|]. split; split; (congruence || lia).
  - rewrite updateResult_healthy in Hrun. injection Hrun as <- _.
    unfold Result_wf, Result_invariant; simpl.
    split; [lia|]. split; split; (congruence || lia).
Qed.

Lemma updateResult_results_wf name details cd err t h :
  results_wf h -> results_wf (after (updateResult name details cd err t) h).
Proof.
  intros Hwf name' r'.
  destruct (updateResult_returns name details cd err t h) as (r & Hrun & _).
  unfold after. rewrite Hrun. simpl.
  destruct (decide (name = name')) as [->|Hne].
  - rewrite lookup_insert_eq. intros [= <-]. eapply updateResult_wf; eauto.
  - rewrite lookup_insert_ne by done. apply Hwf.
Qed.

(** ** The effect of each function on the registry *)

Lemma RegisterCheck_misconfigured cfg now h :
  Check_ cfg = None \/ (exists c, Check_ cfg = Some c /\ Name c = "") ->
  exists e, RegisterCheck cfg now h = (Returned (Some e), h).
Proof.
  intros [Hnil | (c & Hc & Hname)]; unfold RegisterCheck; rewrite ?Hnil, ?Hc.
  - eexists; reflexivity.
  - rewrite bool_decide_eq_true_2 by done. eexists; reflexivity.
Qed.

Lemma RegisterCheck_registers cfg now h c :
  Check_ cfg = Some c ->
  Name c <> "" ->
  exists r,
    updateResult (Name c) (anyString initialResultMsg) 0
      (if negb (InitiallyPassing cfg) then Some (errorString initialResultMsg) else None)
      now h = (Returned r, set_results (insert (Name c) r) h) /\
    RegisterCheck cfg now h =
      (Returned None,
       let task := mkCheckTask (nextChan h) None c in
       mkHealth (<[Name c := r]> (results h))
                (<[Name c := task]> (checkTasks h))
                (checksListener h ++ [OnCheckRegistered (Name c) r])
                (healthListener h)
                (fullChans h)
                (S (nextChan h))
                (goroutines h ++ [mkGoroutine task cfg])
                (crashed h)).
Proof.
  intros Hc Hname.
  destruct (updateResult_returns (Name c) (anyString initialResultMsg) 0
    (if negb (InitiallyPassing cfg) then Some (errorString initialResultMsg) else None)
    now h) as (r & Hrun & _).
  exists r. split; [exact Hrun|].
  unfold RegisterCheck. rewrite Hc. rewrite bool_decide_eq_false_2 by done.
  unfold bind at 1. rewrite Hrun.
  unfold createCheckTask. rewrite Hc. reflexivity.
Qed.

Lemma turn_stop g h :
  scheduleCheck_turn g stopCase h =
  (Returned None,
   mkHealth (delete (Name (check (g_task g))) (results h))
            (delete (Name (check (g_task g))) (checkTasks h))
            (checksListener h) (healthListener h)
            (fullChans h ∖ {[stopChan (g_task g)]})
            (nextChan h) (goroutines h) (crashed h)).
Proof. reflexivity. Qed.

Lemma checkAndUpdateResult_panics task t v h :
  checkAndUpdateResult task t (Panicked v) h =
  (Panicked v, set_checksListener (fun l => l ++ [OnCheckStarted (Name (check task))]) h).
Proof. reflexivity. Qed.

Lemma checkAndUpdateResult_returns task t details cd err h :
  exists r,
    updateResult (Name (check task)) details cd err t
      (set_checksListener (fun l => l ++ [OnCheckStarted (Name (check task))]) h)
      = (Returned r,
         set_results (insert (Name (check task)) r)
           (set_checksListener (fun l => l ++ [OnCheckStarted (Name (check task))]) h)) /\
    checkAndUpdateResult task t (Returned (details, cd, err)) h =
    (Returned tt,
     mkHealth (<[Name (check task) := r]> (results h)) (checkTasks h)
              (checksListener h ++ [OnCheckStarted (Name (check task));
                                    OnCheckCompleted (Name (check task)) r])
              (healthListener h) (fullChans h) (nextChan h) (goroutines h) (crashed h)).
Proof.
  destruct (updateResult_returns (Name (check task)) details cd err t
    (set_checksListener (fun l => l ++ [OnCheckStarted (Name (check task))]) h))
    as (r & Hrun & _).
  exists r. split; [exact Hrun|].
  unfold checkAndUpdateResult, execute.
  unfold bind at 1. unfold modify at 1. unfold bind at 1.
  unfold bind at 1. rewrite Hrun. unfold modify, set_checksListener, set_results. simpl.
  rewrite <- app_assoc. reflexivity.
Qed.

Lemma turn_timer_panics g t v h :
  scheduleCheck_turn g (timerCase t (Panicked v)) h =
  (Panicked v,
   set_checksListener (fun l => l ++ [OnCheckStarted (Name (check (g_task g)))]) h).
Proof. reflexivity. Qed.

(** A turn that executes the check stores the result of [updateResult]
    and leaves the task map, the channels and the goroutines alone. *)
Lemma turn_timer_returns g t details cd err h :
  exists r o h',
    updateResult (Name (check (g_task g))) details cd err t
      (set_checksListener (fun l => l ++ [OnCheckStarted (Name (check (g_task g)))]) h)
      = (Returned r,
         set_results (insert (Name (check (g_task g))) r)
           (set_checksListener (fun l => l ++ [OnCheckStarted (Name (check (g_task g)))]) h)) /\
    scheduleCheck_turn g (timerCase t (Returned (details, cd, err))) h = (o, h') /\
    results h' = <[Name (check (g_task g)) := r]> (results h) /\
    checkTasks h' = checkTasks h /\
    fullChans h' = fullChans h /\
    nextChan h' = nextChan h /\
    goroutines h' = goroutines h /\
    crashed h' = crashed h /\
    (forall g', o = Returned (Some g') ->
       check (g_task g') = check (g_task g) /\ stopChan (g_task g') = stopChan (g_task g)) /\
    o <> Returned None.
Proof.
  destruct (checkAndUpdateResult_returns (g_task g) t details cd err h) as (r & Hupd & Hrun).
  exists r. unfold scheduleCheck_turn, runCheckOrStop.
  unfold bind at 1. unfold bind at 1. rewrite Hrun. simpl.
  unfold bind at 1. unfold reportResults, bind at 1, gets, modify. simpl.
  destruct (ticker (g_task g)) as [d|].
  - eexists _, _. split; [exact Hupd|]. split; [reflexivity|]. simpl.
    repeat split; try done; by simplify_eq.
  - unfold NewTicker. destruct (bool_decide (0 < ExecutionPeriod (g_cfg g))).
    + eexists _, _. split; [exact Hupd|]. split; [reflexivity|]. simpl.
      repeat split; try done; by simplify_eq.
    + eexists _, _. split; [exact Hupd|]. split; [reflexivity|]. simpl.
      repeat split; try done.
Qed.

Lemma Deregister_after name h :
  let h' := after (Deregister name) h in
  results h' = results h /\ checkTasks h' = checkTasks h /\
  nextChan h' = nextChan h /\
  goroutines h' = goroutines h /\ crashed h' = crashed h.
Proof.
  unfold after, Deregister, bind, gets. simpl.
  destruct (checkTasks h !! name); done.
Qed.

Lemma DeregisterAll_after h :
  let h' := after DeregisterAll h in
  results h' = results h /\ checkTasks h' = checkTasks h /\
  nextChan h' = nextChan h /\
  goroutines h' = goroutines h /\ crashed h' = crashed h.
Proof. done. Qed.

Lemma Results_after h : after Results h = h.
Proof. reflexivity. Qed.

Lemma IsHealthy_after h : after IsHealthy h = h.
Proof. reflexivity. Qed.

Lemma exec_op_transition o h : crashed h = None -> transition o h (exec_op o h).
Proof.
  intros Hlive.
  destruct o as [cfg now | name | | | | i sel]; simpl.
  - destruct (Check_ cfg) as [c|] eqn:Hc.
    + destruct (decide (Name c = "")) as [Hname|Hname].
      * destruct (RegisterCheck_misconfigured cfg now h) as (e & Hrun); [eauto|].
        unfold after. rewrite Hrun. by apply transition_none.
      * destruct (RegisterCheck_registers cfg now h c Hc Hname) as (r & Hupd & Hrun).
        unfold after. rewrite Hrun. simpl.
        by eapply (transition_register _ _ _ cfg now
                     (mkGoroutine (mkCheckTask (nextChan h) None c) cfg));
          [| | exact Hupd | ..].
    + destruct (RegisterCheck_misconfigured cfg now h) as (e & Hrun); [eauto|].
      unfold after. rewrite Hrun. by apply transition_none.
  - destruct (Deregister_after name h) as (? & ? & ? & ? & ?). by apply transition_none.
  - destruct (DeregisterAll_after h) as (? & ? & ? & ? & ?). by apply transition_none.
  - by apply transition_none.
  - by apply transition_none.
  - destruct (goroutines h !! i) as [g|] eqn:Hg; [|by apply transition_none].
    destruct sel as [|t [[[details cd] err]|v]].
    + rewrite turn_stop. by eapply transition_stop.
    + destruct (turn_timer_returns g t details cd err h)
        as (r & o & h' & Hupd & Hrun & Hres & Htasks & _ & Hnext & Hgs & Hcr & Hsame & Hnot).
      rewrite Hrun.
      destruct o as [[g'|]|v]; [| done |].
      * eapply transition_update; [exact Hg | | exact Hupd | done | done | done |]; [done|].
        simpl. intros _. exists g'. destruct (Hsame g' eq_refl) as [Hck _].
        unfold loop_name. rewrite Hck, Hgs. done.
      * eapply transition_update; [exact Hg | | exact Hupd | done | done | done |]; done.
    + rewrite turn_timer_panics. by apply transition_none.
Qed.

(** ** Invariants of the reachable states *)

Lemma reachable_if_reachable guard h : reachable_if guard h -> reachable h.
Proof.
  induction 1 as [|h o _ IH Hlive Hen _]; [apply reach_New|].
  by apply reach_step.
Qed.

Lemma valid_run_reachable guard os : forall h,
  reachable_if guard h -> valid_run guard os h = true -> reachable_if guard (run os h).
Proof.
  induction os as [|o os IH]; intros h Hreach Hvalid; [exact Hreach|].
  simpl in Hvalid. destruct (crashed h) eqn:Hlive; [done|].
  apply andb_true_iff in Hvalid as [Hvalid Hrest].
  apply andb_true_iff in Hvalid as [Hen Hguard].
  simpl. apply IH; [|exact Hrest]. by apply reach_step.
Qed.

(** A concrete run from [New] is reachable when it is valid; validity
    is decided by evaluation. *)
Ltac reach_by_run guard os :=
  apply (valid_run_reachable guard os New); [apply reach_New | vm_compute; reflexivity].

Lemma transition_results_wf o h h' : transition o h h' -> results_wf h -> results_wf h'.
Proof.
  intros [Hres _ _ _ | cfg now g details cd err t r hr _ _ Hupd Hres _ _ _ _ _
         | i g details cd err t r h0 hr _ Hsame Hupd Hres _ _ _
         | i g _ Hres _ _ _ _] Hwf name r'; rewrite Hres.
  - apply Hwf.
  - destruct (decide (loop_name g = name)) as [->|Hne].
    + rewrite lookup_insert_eq. intros [= <-]. eapply updateResult_wf; eauto.
    + rewrite lookup_insert_ne by done. apply Hwf.
  - destruct (decide (loop_name g = name)) as [->|Hne].
    + rewrite lookup_insert_eq. intros [= <-].
      eapply (updateResult_wf _ _ _ _ _ h0); [|exact Hupd].
      intros n x. rewrite Hsame. apply Hwf.
    + rewrite lookup_insert_ne by done. apply Hwf.
  - intros Hdel. apply lookup_delete_Some in Hdel as [_ Hdel]. eapply Hwf; eauto.
Qed.

Lemma reachable_results_wf guard h : reachable_if guard h -> results_wf h.
Proof.
  induction 1 as [|h o _ IH Hlive _ _].
  - intros name r. simpl. by rewrite lookup_empty.
  - eapply transition_results_wf; [|exact IH]. by apply exec_op_transition.
Qed.

(** Every name that has a task has a result. *)
Lemma reachable_tasks_have_results guard h :
  reachable_if guard h -> dom (checkTasks h) ⊆ dom (results h).
Proof.
  induction 1 as [|h o _ IH Hlive _ _]; [done|].
  destruct (exec_op_transition o h Hlive)
    as [Hres Htasks _ _ | cfg now g details cd err t r hr _ _ _ Hres Htasks _ _ _ _
       | i g details cd err t r h0 hr _ _ _ Hres Htasks _ _
       | i g _ Hres Htasks _ _ _]; rewrite Hres, Htasks.
  - done.
  - rewrite !dom_insert_L. set_solver.
  - rewrite dom_insert_L. set_solver.
  - rewrite !dom_delete_L. set_solver.
Qed.

Lemma list_to_set_delete_NoDup (l : list string) i x :
  NoDup l -> l !! i = Some x ->
  list_to_set (C := gset string) (delete i l) = list_to_set l ∖ {[x]}.
Proof.
  intros Hnd Hi.
  rewrite <- (take_drop_middle l i x Hi) in Hnd.
  rewrite <- (take_drop_middle l i x Hi) at 2.
  rewrite delete_take_drop.
  apply NoDup_app in Hnd as (_ & Hdisj & Hnd).
  apply NoDup_cons in Hnd as [Hnotin _].
  rewrite !list_to_set_app_L, list_to_set_cons.
  assert (x ∉ take i l) by (intros Hin; eapply Hdisj; [exact Hin | left]).
  set_solver.
Qed.


Lemma elem_of_delete_sub {A} (l : list A) i y : y ∈ delete i l -> y ∈ l.
Proof. intros Hy. eapply elem_of_sublist; [exact Hy | apply sublist_delete]. Qed.

Lemma NoDup_fmap_delete_ne {A B} (f : A -> B) (l : list A) i x y :
  NoDup (f <$> l) -> l !! i = Some x -> y ∈ delete i l -> f y <> f x.
Proof.
  intros Hnd Hi Hy Heq.
  rewrite <- (take_drop_middle l i x Hi) in Hnd.
  rewrite fmap_app, fmap_cons in Hnd.
  apply NoDup_app in Hnd as (_ & Hdisj & Hnd).
  apply NoDup_cons in Hnd as [Hnotin _].
  rewrite delete_take_drop in Hy. apply elem_of_app in Hy as [Hy | Hy].
  - apply (Hdisj (f x)); [|left]. rewrite <- Heq. by apply list_elem_of_fmap_2.
  - apply Hnotin. rewrite <- Heq. by apply list_elem_of_fmap_2.
Qed.

Lemma delete_length_snoc {A} (l : list A) x : delete (length l) (l ++ [x]) = l.
Proof. induction l as [|y l IH]; simpl; [done | by rewrite IH]. Qed.

Lemma reachable_fresh_names_agree h : reachable_fresh h -> names_agree h.
Proof.
  induction 1 as [|h o _ [IHdom IHloops] Hlive _ Hfresh].
  - split; [done|]. intros _. split; [constructor | done].
  - destruct (IHloops Hlive) as [Hnd Hnames].
    assert (Hstep := exec_op_transition o h Hlive).
    destruct Hstep
      as [Hres Htasks _ Hgs | cfg now g details cd err t r hr Ho Hck _ Hres Htasks _ _ Hgs Hcr
         | i g details cd err t r h0 hr Hg _ _ Hres Htasks _ Hgs
         | i g Hg Hres Htasks _ Hgs Hcr].
    + split; [by rewrite Hres, Htasks|].
      intros Hlive'. rewrite Htasks, (Hgs Hlive'). done.
    + subst o. simpl in Hfresh. rewrite Hck in Hfresh. fold (loop_name g) in Hfresh.
      destruct (checkTasks h !! loop_name g) eqn:Hnone; [done|].
      split; [by rewrite Hres, Htasks, !dom_insert_L, IHdom|].
      intros _. rewrite Hgs, Htasks, dom_insert_L, Hnames, fmap_app. simpl.
      split.
      * apply NoDup_app. split; [done|]. split; [|apply NoDup_singleton].
        intros x Hx ->%list_elem_of_singleton.
        apply not_elem_of_dom in Hnone. apply Hnone. rewrite Hnames.
        by apply elem_of_list_to_set.
      * rewrite list_to_set_app_L. set_solver.
    + assert (Hin : loop_name g ∈ dom (checkTasks h)).
      { rewrite Hnames. apply elem_of_list_to_set, list_elem_of_fmap.
        exists g. split; [done|]. eapply list_elem_of_lookup_2; eauto. }
      split.
      * rewrite Hres, Htasks, dom_insert_L. set_solver.
      * intros Hlive'. destruct (Hgs Hlive') as (g' & Hsame & ->).
        rewrite Htasks, list_fmap_insert, Hsame.
        rewrite list_insert_id; [done|].
        by rewrite list_lookup_fmap, Hg.
    + split; [by rewrite Hres, Htasks, !dom_delete_L, IHdom|].
      intros _. rewrite Hgs, Htasks, dom_delete_L, Hnames.
      rewrite list_fmap_delete.
      assert (Hi : (loop_name <$> goroutines h) !! i = Some (loop_name g))
        by (by rewrite list_lookup_fmap, Hg).
      split.
      * eapply sublist_NoDup; [exact Hnd | apply sublist_delete].
      * symmetry. by apply list_to_set_delete_NoDup.
Qed.

(** ** Failure streaks *)

Lemma record_all_snoc os o h :
  record_all (os ++ [o]) h = after (record_outcome o) (record_all os h).
Proof. unfold record_all. by rewrite fold_left_app. Qed.

Lemma streak_snoc os o : streak (os ++ [o]) = streak_step (streak os) o.
Proof. unfold streak. by rewrite fold_left_app. Qed.

Lemma streak_failing_app suf : forall acc,
  Forall failing suf -> fold_left streak_step suf acc = acc ++ suf.
Proof.
  induction suf as [|o suf IH]; intros acc Hall; simpl.
  - by rewrite app_nil_r.
  - apply Forall_cons in Hall as [Ho Hall].
    rewrite IH by done. unfold streak_step.
    unfold failing in Ho. destruct (o_err o); [|done].
    by rewrite <- app_assoc.
Qed.

(** [streak] is the maximal failing suffix: any failing suffix preceded
    by a healthy outcome (or by nothing) is it. *)
Lemma streak_maximal_suffix pre suf :
  Forall failing suf ->
  (forall o, last pre = Some o -> o_err o = None) ->
  streak (pre ++ suf) = suf.
Proof.
  intros Hall Hlast. unfold streak. rewrite fold_left_app.
  rewrite streak_failing_app by done.
  enough (Hpre : fold_left streak_step pre [] = []) by (by rewrite Hpre).
  destruct pre as [|p pre _] using rev_ind; [done|].
  rewrite fold_left_app. simpl. unfold streak_step.
  rewrite (Hlast p); [done|]. by rewrite last_snoc.
Qed.

(** Recording one more outcome keeps the stored result in step with the
    outcomes of its name. *)
Lemma carries_record name (o : outcome) (h : health) (ns : list outcome) :
  carries name (results h) ns ->
  carries name (results (after (record_outcome o) h))
          (ns ++ filter (fun x => o_name x = name) [o]).
Proof.
  unfold carries. intros IH.
  destruct (updateResult_returns (o_name o) (o_details o) (o_duration o) (o_err o)
              (o_time o) h) as (r & Hrun & _).
  destruct (decide (o_name o = name)) as [Heq|Hne].
  - rewrite filter_cons_True by done. rewrite filter_nil, streak_snoc.
    unfold streak_step, after, record_outcome.
    destruct (o_err o) as [e|] eqn:Herr.
    + destruct (results h !! name) as [prev|] eqn:Hprev.
      * rewrite <- Heq in Hprev.
        rewrite (updateResult_next _ _ _ _ _ _ _ Hprev). simpl.
        rewrite Heq, lookup_insert_eq. simpl.
        destruct IH as (_ & Hcf & Htf & Hhl).
        split; [by destruct ns|]. split; [rewrite length_app, Hcf; simpl; lia|].
        split; [|split; [done | by destruct (streak ns)]].
        destruct (Result_IsHealthy prev) eqn:Hh.
        -- apply Result_IsHealthy_nil, Hhl in Hh. by rewrite Hh.
        -- rewrite Htf. apply Result_IsHealthy_false in Hh.
           destruct (streak ns) as [|s ss]; [|done]. exfalso. by apply Hh, Hhl.
      * rewrite <- Heq in Hprev.
        rewrite (updateResult_first _ _ _ _ _ _ Hprev). simpl.
        rewrite Heq, lookup_insert_eq. simpl. rewrite IH. simpl.
        repeat split; done.
    + rewrite updateResult_healthy. simpl.
      rewrite Heq, lookup_insert_eq. simpl.
      split; [by destruct ns|]. repeat split; done.
  - rewrite filter_cons_False by done. rewrite filter_nil, app_nil_r.
    unfold after, record_outcome. rewrite Hrun. simpl.
    rewrite lookup_insert_ne by done. exact IH.
Qed.

(** After any sequence of outcomes, the result stored for [name]
    carries the streak of the outcomes of that name. *)
Lemma record_all_streak name h :
  results h !! name = None ->
  forall os, carries name (results (record_all os h)) (filter (fun o => o_name o = name) os).
Proof.
  intros Hnone os. induction os as [|o os IH] using rev_ind.
  - unfold carries. simpl. by rewrite Hnone.
  - rewrite record_all_snoc, filter_app. by apply carries_record.
Qed.

(** Along every run of the program: whatever the clients and the
    goroutines do, the result stored for [name] carries the streak of
    the outcomes recorded for it since it was last deleted, the initial
    result of its registration included. *)
Lemma exec_op_carries name o h ns :
  carries name (results h) ns ->
  carries name (results (exec_op o h))
    (if bool_decide (stopped_by o h = Some name) then []
     else ns ++ filter (fun x => o_name x = name) (outcomes_of o h)).
Proof.
  intros Hns.
  assert (Hsame : forall h', results h' = results h ->
            carries name (results h') (ns ++ filter (fun x => o_name x = name) [])).
  { intros h' ->. by rewrite filter_nil, app_nil_r. }
  destruct o as [cfg now | n | | | | i sel]; simpl.
  - destruct (Check_ cfg) as [c|] eqn:Hc.
    + destruct (decide (Name c = "")) as [Hname|Hname].
      * destruct (RegisterCheck_misconfigured cfg now h) as (e & Hrun); [eauto|].
        unfold after. rewrite Hrun, bool_decide_eq_true_2 by done. by apply Hsame.
      * destruct (RegisterCheck_registers cfg now h c Hc Hname) as (r & Hupd & Hrun).
        rewrite bool_decide_eq_false_2 by done.
        pose proof (carries_record name
          (mkOutcome (Name c) (anyString initialResultMsg) 0
             (if negb (InitiallyPassing cfg) then Some (errorString initialResultMsg)
              else None) now) h ns Hns) as Hrec.
        unfold after, record_outcome in Hrec.
        cbn [o_name o_details o_duration o_err o_time] in Hrec. rewrite Hupd in Hrec.
        unfold after. rewrite Hrun. exact Hrec.
    + destruct (RegisterCheck_misconfigured cfg now h) as (e & Hrun); [eauto|].
      unfold after. rewrite Hrun. by apply Hsame.
  - apply Hsame. apply Deregister_after.
  - by apply Hsame.
  - by apply Hsame.
  - by apply Hsame.
  - destruct (goroutines h !! i) as [g|] eqn:Hg; simpl.
    + destruct sel as [|t [[[details cd] err]|v]].
      * rewrite turn_stop. simpl. unfold carries.
        destruct (decide (loop_name g = name)) as [<-|Hne].
        -- rewrite bool_decide_eq_true_2 by done. by rewrite lookup_delete_eq.
        -- rewrite bool_decide_eq_false_2 by congruence.
           rewrite lookup_delete_ne by done. by rewrite app_nil_r.
      * destruct (turn_timer_returns g t details cd err h)
          as (r & o & h' & Hupd & Hrun & Hres & _).
        pose proof (carries_record name (mkOutcome (loop_name g) details cd err t)
          (set_checksListener (fun l => l ++ [OnCheckStarted (loop_name g)]) h) ns Hns)
          as Hrec.
        unfold after, record_outcome in Hrec.
        cbn [o_name o_details o_duration o_err o_time] in Hrec.
        unfold loop_name in Hrec. rewrite Hupd in Hrec. simpl in Hrec.
        rewrite Hrun, ?Hg.
        assert (Hfinal : results
          match o with
          | Returned (Some g') => set_goroutines (fun gs => <[i := g']> gs) h'
          | Returned None => set_goroutines (fun gs => delete i gs) h'
          | Panicked v => set_crashed (Some v) (set_goroutines (fun _ => []) h')
          end = <[loop_name g := r]> (results h)).
        { by destruct o as [[g'|]|v]. }
        rewrite Hfinal. exact Hrec.
      * rewrite turn_timer_panics. by apply Hsame.
    + destruct sel as [|t [[[details cd] err]|v]]; simpl; rewrite ?Hg; by apply Hsame.
Qed.

Lemma run_carries name os : forall h ns,
  carries name (results h) ns ->
  carries name (results (run os h)) (history name os h ns).
Proof.
  induction os as [|o os IH]; intros h ns Hns; [exact Hns|].
  simpl. apply IH. by apply exec_op_carries.
Qed.

Lemma stored_result_carries_history name os :
  carries name (results (run os New)) (history name os New []).
Proof. apply run_carries. unfold carries. simpl. by rewrite lookup_empty. Qed.

Example history_of_A_failing :
  history "A" run_A_failing New [] =
  [mkOutcome "A" (anyString initialResultMsg) 0 (Some (errorString initialResultMsg)) 100;
   mkOutcome "A" (anyString "down") 3 (Some (errorString "boom")) 110].
Proof. reflexivity. Qed.

(** C1, as the code has it.  [RegisterCheck] stores the initial result
    through [updateResult] as well, so the outcomes that count are those
    handed to [updateResult] for the name since the name last had no
    result: the initial result of each registration (a failure unless
    the check is registered as initially passing), then the outcomes of
    the executions.  For every run of the program from [New]: split
    that history of [name] into a part that is empty or ends with a
    healthy outcome, followed by failing outcomes only (the maximal
    failing suffix).  When the history is not empty the name has a
    stored result, whose [ContiguousFailures] is the length of that
    suffix and whose [TimeOfFirstFailure] is the timestamp of the
    suffix's first outcome, nil when the suffix is empty. *)
Theorem contiguous_failures_is_suffix_since_registration
    (name : string) (os : list op) (pre suf : list outcome) :
  history name os New [] = pre ++ suf ->
  pre ++ suf <> [] ->
  Forall failing suf ->
  (forall o, last pre = Some o -> o_err o = None) ->
  exists r,
    results (run os New) !! name = Some r /\
    ContiguousFailures r = Z.of_nat (length suf) /\
    TimeOfFirstFailure r = o_time <$> head suf.
Proof.
  intros Hsplit Hne Hall Hlast.
  pose proof (stored_result_carries_history name os) as Hrec. unfold carries in Hrec.
  rewrite Hsplit in Hrec. rewrite (streak_maximal_suffix pre suf Hall Hlast) in Hrec.
  destruct (results (run os New) !! name) as [r|]; [|done].
  destruct Hrec as (_ & Hcf & Htf & _). by exists r.
Qed.

Lemma contiguous_failures_is_suffix_since_registration_witness :
  valid_run unguarded run_A_failing New = true /\
  exists r,
    results (run run_A_failing New) !! "A" = Some r /\
    ContiguousFailures r = Z.of_nat (length [outcome_registered_A; outcome_boom_A]) /\
    TimeOfFirstFailure r = o_time <$> head [outcome_registered_A; outcome_boom_A].
Proof.
  split; [vm_compute; reflexivity|].
  apply (contiguous_failures_is_suffix_since_registration "A" run_A_failing
           [] [outcome_registered_A; outcome_boom_A]).
  - reflexivity.
  - discriminate.
  - repeat constructor; discriminate.
  - intros o Ho. discriminate Ho.
Defined.

(** C1 as stated fails.  A is registered at time 100 without
    [InitiallyPassing] and its first execution, at time 110, fails.  The
    execution outcomes of A are that one failure: their maximal failing
    suffix has length 1 and starts at time 110.  The stored result has
    [ContiguousFailures] 2 and [TimeOfFirstFailure] 100, the time of the
    registration. *)
Lemma executions_alone_miss_initial_failure :
  valid_run unguarded run_A_failing New = true /\
  execution_history "A" run_A_failing New [] = [outcome_boom_A] /\
  (exists r,
     results (run run_A_failing New) !! "A" = Some r /\
     ContiguousFailures r = 2 /\
     TimeOfFirstFailure r = Some 100) /\
  ~ streak_of_executions "A" run_A_failing.
Proof.
  split; [vm_compute; reflexivity|].
  split; [reflexivity|].
  assert (Hr : exists r,
     results (run run_A_failing New) !! "A" = Some r /\
     ContiguousFailures r = 2 /\
     TimeOfFirstFailure r = Some 100).
  { eexists. split; [vm_compute; reflexivity|]. split; reflexivity. }
  split; [exact Hr|].
  intros Hclaim. destruct Hr as (r & Hr & Hcf & _).
  destruct (Hclaim r [] [outcome_boom_A] Hr) as [Hcf' _].
  - reflexivity.
  - repeat constructor; discriminate.
  - intros o Ho. discriminate Ho.
  - rewrite Hcf in Hcf'. discriminate Hcf'.
Qed.

(** ** The invariant of stored results *)

(** C2. Every result stored in the result map of a reachable state (put
    there by a registration or by an execution) satisfies
    [ContiguousFailures > 0 <-> Error != nil <-> TimeOfFirstFailure != nil],
    and [IsHealthy] of it holds iff its error is nil; and after any
    further call of [updateResult] every stored result still satisfies
    the invariant. *)
Theorem stored_results_invariant (h : health) :
  reachable h ->
  (forall name r,
     results h !! name = Some r ->
     Result_invariant r /\ (Result_IsHealthy r = true <-> Error r = None)) /\
  (forall name details cd err t name' r',
     results (after (updateResult name details cd err t) h) !! name' = Some r' ->
     Result_invariant r').
Proof.
  intros Hreach. pose proof (reachable_results_wf _ _ Hreach) as Hwf. split.
  - intros name r Hr. split; [apply (Hwf _ _ Hr) | apply Result_IsHealthy_nil].
  - intros name details cd err t name' r' Hr'.
    eapply (updateResult_results_wf name details cd err t h Hwf); eauto.
Qed.

Lemma stored_results_invariant_witness :
  Result_invariant
    (mkResult (anyString "down") (Some (marshalableError "boom")) 110 3 2 (Some 100)).
Proof.
  refine (proj1 (proj1 (stored_results_invariant (run run_A_failing New) _) "A" _ _)).
  - reach_by_run unguarded run_A_failing.
  - vm_compute. reflexivity.
Defined.

(** ** Aggregate health *)

Lemma Results_fold (rs : gmap string Result) :
  let out := map_fold (fun k v acc => (<[k := v]> (fst acc), snd acc && Result_IsHealthy v))
                      (∅, true) rs in
  fst out = rs /\
  (snd out = true <-> forall name r, rs !! name = Some r -> Error r = None).
Proof.
  cbv zeta.
  apply (map_fold_weak_ind (fun out (m : gmap string Result) =>
    fst out = m /\ (snd out = true <-> forall name r, m !! name = Some r -> Error r = None))).
  - split; [done|]. split; [|done]. intros _ name r. by rewrite lookup_empty.
  - intros k v m [copy b] Hk [Hcopy Hb]. simpl in *. subst copy. split; [done|].
    rewrite andb_true_iff, Hb, Result_IsHealthy_nil. split.
    + intros [Hm Hv] name r. destruct (decide (k = name)) as [->|Hne].
      * rewrite lookup_insert_eq. by intros [= <-].
      * rewrite lookup_insert_ne by done. apply Hm.
    + intros Hall. split.
      * intros name r Hr. apply (Hall name). rewrite lookup_insert_ne; [done|].
        intros ->. congruence.
      * apply (Hall k). by rewrite lookup_insert_eq.
Qed.

Lemma allHealthy_spec (rs : gmap string Result) :
  allHealthy rs = true <-> forall name r, rs !! name = Some r -> Error r = None.
Proof.
  unfold allHealthy.
  apply (map_fold_weak_ind (fun b (m : gmap string Result) =>
    b = true <-> forall name r, m !! name = Some r -> Error r = None)).
  - split; [|done]. intros _ name r. by rewrite lookup_empty.
  - intros k v m b Hk Hb.
    rewrite andb_true_iff, Hb, Result_IsHealthy_nil. split.
    + intros [Hm Hv] name r. destruct (decide (k = name)) as [->|Hne].
      * rewrite lookup_insert_eq. by intros [= <-].
      * rewrite lookup_insert_ne by done. apply Hm.
    + intros Hall. split.
      * intros name r Hr. apply (Hall name). rewrite lookup_insert_ne; [done|].
        intros ->. congruence.
      * apply (Hall k). by rewrite lookup_insert_eq.
Qed.

(** C3. [IsHealthy()] returns true iff every result of the result map
    has a nil error (so it is true when no check is registered), and it
    returns the boolean that [Results()] returns on the same state next
    to its copy of the map. *)
Theorem IsHealthy_iff_all_results_healthy (h : health) :
  exists (b : bool) (copy : gmap string Result),
    IsHealthy h = (Returned b, h) /\
    Results h = (Returned (copy, b), h) /\
    copy = results h /\
    (b = true <-> forall name r, results h !! name = Some r -> Error r = None) /\
    (results h = ∅ -> b = true).
Proof.
  destruct (Results_fold (results h)) as [Hcopy Hb].
  pose proof (allHealthy_spec (results h)) as Hall.
  exists (allHealthy (results h)),
    (fst (map_fold (fun k v acc => (<[k := v]> (fst acc), snd acc && Result_IsHealthy v))
                   (∅, true) (results h))).
  split; [reflexivity|]. split.
  - unfold Results, bind, gets, ret. f_equal. f_equal.
    rewrite (surjective_pairing (map_fold _ _ _)) at 1. f_equal.
    apply eq_true_iff_eq. by rewrite Hb, Hall.
  - split; [done|]. split; [done|].
    intros Hempty. apply Hall. intros name r. by rewrite Hempty, lookup_empty.
Qed.

(** ** Starting and extending a streak *)

(** C4. When [updateResult] records an unhealthy outcome in a reachable
    state: if there is no previous result for the name, or the previous
    one is healthy, the new result has [ContiguousFailures = 1] and
    [TimeOfFirstFailure] equal to the new timestamp; if the previous one
    is unhealthy, [ContiguousFailures] is the previous count plus one
    and [TimeOfFirstFailure] is the previous one, unchanged. *)
Theorem unhealthy_outcome_starts_or_extends_streak
    (h : health) (name : string) (details : any) (cd : GoDuration) (e : error) (t : Time) :
  reachable h ->
  exists r,
    updateResult name details cd (Some e) t h = (Returned r, set_results (insert name r) h) /\
    Error r <> None /\
    match results h !! name with
    | None => ContiguousFailures r = 1 /\ TimeOfFirstFailure r = Some t
    | Some prev =>
        if Result_IsHealthy prev
        then ContiguousFailures r = 1 /\ TimeOfFirstFailure r = Some t
        else ContiguousFailures r = ContiguousFailures prev + 1 /\
             TimeOfFirstFailure r = TimeOfFirstFailure prev
    end.
Proof.
  intros Hreach. pose proof (reachable_results_wf _ _ Hreach) as Hwf.
  destruct (results h !! name) as [prev|] eqn:Hprev.
  - eexists. split; [apply (updateResult_next _ _ _ _ _ _ _ Hprev)|]. simpl.
    split; [done|].
    destruct (Result_IsHealthy prev) eqn:Hh; [|done].
    split; [|done].
    destruct (Hwf _ _ Hprev) as (Hpos & [Hcf _] & _).
    apply Result_IsHealthy_nil in Hh.
    assert (~ 0 < ContiguousFailures prev) by (intros Hlt; by apply Hcf in Hlt).
    lia.
  - eexists. split; [apply (updateResult_first _ _ _ _ _ _ Hprev)|]. by simpl.
Qed.

Lemma unhealthy_outcome_starts_or_extends_streak_witness :
  exists r,
    updateResult "A" (anyString "down") 3 (Some (errorString "boom")) 120
      (run run_A_failing New)
    = (Returned r, set_results (insert "A" r) (run run_A_failing New)) /\
    Error r <> None /\
    ContiguousFailures r = 2 + 1 /\ TimeOfFirstFailure r = Some 100.
Proof.
  refine (unhealthy_outcome_starts_or_extends_streak (run run_A_failing New) "A"
            (anyString "down") 3 (errorString "boom") 120 _).
  reach_by_run unguarded run_A_failing.
Defined.

(** ** Registration *)

(** C5. [RegisterCheck] returns a non-nil error iff the check is nil or
    its name is empty, and then the state is untouched: no result is
    stored, no task is created, no goroutine is started, no listener is
    called. *)
Theorem RegisterCheck_error_iff_misconfigured (cfg : Config) (now : Time) (h : health) :
  exists (res : option error) (h' : health),
    RegisterCheck cfg now h = (Returned res, h') /\
    (res <> None <->
     Check_ cfg = None \/ exists c, Check_ cfg = Some c /\ Name c = "") /\
    (res <> None -> h' = h).
Proof.
  destruct (Check_ cfg) as [c|] eqn:Hc.
  - destruct (decide (Name c = "")) as [Hname|Hname].
    + destruct (RegisterCheck_misconfigured cfg now h) as (e & Hrun); [eauto|].
      exists (Some e), h. split; [done|]. split; [|done].
      split; [|done]. intros _. right. by exists c.
    + destruct (RegisterCheck_registers cfg now h c Hc Hname) as (r & _ & Hrun).
      eexists None, _. split; [exact Hrun|]. split; [|done].
      split; [done|]. intros [Hnil | (c' & [= <-] & Hempty)]; done.
  - destruct (RegisterCheck_misconfigured cfg now h) as (e & Hrun); [eauto|].
    exists (Some e), h. split; [done|]. split; [|done].
    split; [|done]. intros _. by left.
Qed.

(** C6. After a successful [RegisterCheck], and before any execution,
    the result stored for the check's name has a non-nil error when
    [InitiallyPassing] is false and a nil error when it is true. *)
Theorem initial_result_follows_InitiallyPassing
    (cfg : Config) (now : Time) (h : health) (c : Check) :
  Check_ cfg = Some c ->
  Name c <> "" ->
  exists (r : Result) (h' : health),
    RegisterCheck cfg now h = (Returned None, h') /\
    results h' !! Name c = Some r /\
    (InitiallyPassing cfg = false -> Error r <> None) /\
    (InitiallyPassing cfg = true -> Error r = None).
Proof.
  intros Hc Hname.
  destruct (RegisterCheck_registers cfg now h c Hc Hname) as (r & Hupd & Hrun).
  exists r. eexists. split; [exact Hrun|]. simpl.
  split; [by rewrite lookup_insert_eq|].
  destruct (updateResult_returns (Name c) (anyString initialResultMsg) 0
    (if negb (InitiallyPassing cfg) then Some (errorString initialResultMsg) else None)
    now h) as (r' & Hupd' & Herr & _).
  rewrite Hupd in Hupd'. injection Hupd' as <-.
  rewrite Herr. destruct (InitiallyPassing cfg); simpl; split; congruence.
Qed.

Lemma initial_result_follows_InitiallyPassing_witness :
  exists (r : Result) (h' : health),
    RegisterCheck cfgA_passing 100 New = (Returned None, h') /\
    results h' !! "A" = Some r /\
    (true = false -> Error r <> None) /\
    (true = true -> Error r = None).
Proof.
  apply (initial_result_follows_InitiallyPassing cfgA_passing 100 New checkA).
  - reflexivity.
  - discriminate.
Defined.

Lemma reachable_chans_made guard h : reachable_if guard h -> chans_made h.
Proof.
  induction 1 as [|h o _ IH Hlive _ _]; [intros name task; simpl; by rewrite lookup_empty|].
  destruct (exec_op_transition o h Hlive)
    as [_ Htasks Hnext _ | cfg now g details cd err t r hr _ _ _ _ Htasks Hch Hnext _ _
       | i g details cd err t r h0 hr _ _ _ _ Htasks Hnext _
       | i g _ _ Htasks Hnext _ _];
    intros name task; rewrite Htasks, Hnext.
  - apply IH.
  - destruct (decide (loop_name g = name)) as [->|Hne].
    + rewrite lookup_insert_eq. intros [= <-]. lia.
    + rewrite lookup_insert_ne by done. intros Hold. specialize (IH _ _ Hold). lia.
  - apply IH.
  - intros Hdel. apply lookup_delete_Some in Hdel as [_ Hdel]. by eapply IH.
Qed.

(** C9. [RegisterCheck] with a check whose name already has a task
    returns nil, and the task map then holds, under that name, the new
    task: the one handed to the goroutine just started, on a stop
    channel of its own.  The goroutines started before are still
    there. *)
Theorem RegisterCheck_replaces_task
    (cfg : Config) (now : Time) (h : health) (c : Check) (old : checkTask) :
  reachable h ->
  Check_ cfg = Some c ->
  Name c <> "" ->
  checkTasks h !! Name c = Some old ->
  exists (task : checkTask) (h' : health),
    RegisterCheck cfg now h = (Returned None, h') /\
    checkTasks h' !! Name c = Some task /\
    check task = c /\
    stopChan task <> stopChan old /\
    goroutines h' = goroutines h ++ [mkGoroutine task cfg].
Proof.
  intros Hreach Hc Hname Hold.
  destruct (RegisterCheck_registers cfg now h c Hc Hname) as (r & _ & Hrun).
  eexists _, _. split; [exact Hrun|]. simpl.
  split; [by rewrite lookup_insert_eq|]. split; [done|]. split; [|done].
  pose proof (reachable_chans_made _ _ Hreach _ _ Hold). simpl. lia.
Qed.

Lemma RegisterCheck_replaces_task_witness :
  exists (task : checkTask) (h' : health),
    RegisterCheck cfgA 101 registered_A_passing = (Returned None, h') /\
    checkTasks h' !! "A" = Some task /\
    check task = checkA /\
    stopChan task <> 0%nat /\
    goroutines h' = [goroutineA; mkGoroutine task cfgA].
Proof.
  refine (RegisterCheck_replaces_task cfgA 101 registered_A_passing checkA
            (mkCheckTask 0 None checkA) _ _ _ _).
  - reach_by_run unguarded [opRegisterCheck cfgA_passing 100].
  - reflexivity.
  - discriminate.
  - vm_compute. reflexivity.
Defined.

(** C10. When [RegisterCheck] is called with [InitiallyPassing] false
    for a name without a result, the result it stores already counts as
    the first failure: [ContiguousFailures = 1] and [TimeOfFirstFailure]
    is the registration time.  So whenever that result is still the
    stored one and the check's first execution fails, the new result has
    [ContiguousFailures = 2] and [TimeOfFirstFailure] is still the
    registration time. *)
Theorem initial_failure_counts_in_streak
    (cfg : Config) (now : Time) (h : health) (c : Check) :
  Check_ cfg = Some c ->
  Name c <> "" ->
  InitiallyPassing cfg = false ->
  results h !! Name c = None ->
  exists (r1 : Result) (h1 : health),
    RegisterCheck cfg now h = (Returned None, h1) /\
    results h1 !! Name c = Some r1 /\
    Error r1 <> None /\
    ContiguousFailures r1 = 1 /\
    TimeOfFirstFailure r1 = Some now /\
    forall (task : checkTask) (t : Time) (details : any) (cd : GoDuration) (e : error)
           (h2 : health),
      check task = c ->
      results h2 !! Name c = Some r1 ->
      exists (r2 : Result) (h3 : health),
        checkAndUpdateResult task t (Returned (details, cd, Some e)) h2 = (Returned tt, h3) /\
        results h3 !! Name c = Some r2 /\
        ContiguousFailures r2 = 2 /\
        TimeOfFirstFailure r2 = Some now.
Proof.
  intros Hc Hname Hfailing Hnone.
  destruct (RegisterCheck_registers cfg now h c Hc Hname) as (r1 & Hupd & Hrun).
  rewrite Hfailing in Hupd. simpl in Hupd.
  rewrite (updateResult_first _ _ _ _ _ _ Hnone) in Hupd. injection Hupd as <-.
  eexists _, _. split; [exact Hrun|]. simpl.
  split; [by rewrite lookup_insert_eq|]. do 3 (split; [done|]).
  intros task t details cd e h2 <- Hstored.
  destruct (checkAndUpdateResult_returns task t details cd (Some e) h2) as (r2 & Hupd & Hrun2).
  rewrite (updateResult_next _ _ _ _ _
             (set_checksListener (fun l => l ++ [OnCheckStarted (Name (check task))]) h2)
             _ Hstored) in Hupd.
  injection Hupd as <-.
  eexists _, _. split; [exact Hrun2|]. simpl.
  split; [by rewrite lookup_insert_eq|]. done.
Qed.

Lemma initial_failure_counts_in_streak_witness :
  exists (r2 : Result),
    results (run run_A_failing New) !! "A" = Some r2 /\
    ContiguousFailures r2 = 2 /\
    TimeOfFirstFailure r2 = Some 100.
Proof.
  destruct (initial_failure_counts_in_streak cfgA 100 New checkA)
    as (r1 & h1 & Hrun & Hr1 & _ & _ & _ & Hnext).
  - reflexivity.
  - discriminate.
  - reflexivity.
  - reflexivity.
  - injection Hrun as <-.
    destruct (Hnext (mkCheckTask 0 None checkA) 110 (anyString "down") 3
                (errorString "boom") _ eq_refl Hr1)
      as (r2 & h3 & Hrun2 & Hr2 & Hcf & Htf).
    injection Hrun2 as <-.
    exists r2. repeat split; [|exact Hcf|exact Htf].
    exact Hr2.
Defined.

(** ** The two maps *)

Lemma stopCheckTask_deletes name h :
  results (after (stopCheckTask name) h) !! name = None /\
  checkTasks (after (stopCheckTask name) h) !! name = None.
Proof. unfold after; simpl. by rewrite !lookup_delete_eq. Qed.

(** ** The two maps, one critical section at a time *)

Lemma RegisterCheck_result_misconfigured cfg now h :
  Check_ cfg = None \/ (exists c, Check_ cfg = Some c /\ Name c = "") ->
  exists e, RegisterCheck_result cfg now h = (Returned (Some e), h).
Proof.
  intros [Hnil | (c & Hc & Hname)]; unfold RegisterCheck_result; rewrite ?Hnil, ?Hc.
  - eexists; reflexivity.
  - rewrite bool_decide_eq_true_2 by done. eexists; reflexivity.
Qed.

Lemma RegisterCheck_result_stores cfg now h c :
  Check_ cfg = Some c ->
  Name c <> "" ->
  exists r,
    RegisterCheck_result cfg now h =
      (Returned None,
       mkHealth (<[Name c := r]> (results h)) (checkTasks h)
                (checksListener h ++ [OnCheckRegistered (Name c) r])
                (healthListener h) (fullChans h) (nextChan h) (goroutines h) (crashed h)) /\
    RegisterCheck cfg now h =
      (Returned None,
       let task := mkCheckTask (nextChan h) None c in
       mkHealth (<[Name c := r]> (results h))
                (<[Name c := task]> (checkTasks h))
                (checksListener h ++ [OnCheckRegistered (Name c) r])
                (healthListener h)
                (fullChans h)
                (S (nextChan h))
                (goroutines h ++ [mkGoroutine task cfg])
                (crashed h)).
Proof.
  intros Hc Hname.
  destruct (RegisterCheck_registers cfg now h c Hc Hname) as (r & Hupd & Hrun).
  exists r. split; [|exact Hrun].
  unfold RegisterCheck_result. rewrite Hc. rewrite bool_decide_eq_false_2 by done.
  unfold bind at 1. rewrite Hupd. reflexivity.
Qed.

(** A call of [RegisterCheck] that nothing interleaves with is its
    three steps one after the other. *)
Lemma RegisterCheck_by_sections cfg now p :
  run_sections (sections_RegisterCheck cfg now p) p
  = set_registry (exec_op (opRegisterCheck cfg now)) p.
Proof.
  destruct p as [h reg sched rep]. unfold sections_RegisterCheck, run_sections, set_registry.
  cbn [fold_left registry registering scheduling reporting exec_op].
  assert (Hreg : reg !! length reg = None) by (apply lookup_ge_None_2; lia).
  assert (Hsched : sched !! length sched = None) by (apply lookup_ge_None_2; lia).
  assert (Hbad : forall e, RegisterCheck_result cfg now h = (Returned (Some e), h) ->
            forall e', RegisterCheck cfg now h = (Returned (Some e'), h) ->
            exec_section (soGo (length sched))
              (exec_section (soCreateTask (length reg))
                 (exec_section (soRegisterResult cfg now) (mkProgram h reg sched rep)))
            = mkProgram (after (RegisterCheck cfg now) h) reg sched rep).
  { intros e Hres e' Hrun.
    cbn [exec_section registry registering scheduling reporting].
    rewrite Hres. unfold after. rewrite Hrun.
    cbn [set_registry registry registering scheduling reporting snd].
    rewrite Hreg. cbn [set_registry registry registering scheduling reporting]. by rewrite Hsched. }
  destruct (Check_ cfg) as [c|] eqn:Hc.
  - destruct (decide (Name c = "")) as [Hname|Hname].
    + destruct (RegisterCheck_result_misconfigured cfg now h) as (e & Hres); [eauto|].
      destruct (RegisterCheck_misconfigured cfg now h) as (e' & Hrun); [eauto|].
      by eapply Hbad.
    + destruct (RegisterCheck_result_stores cfg now h c Hc Hname) as (r & Hres & Hrun).
      cbn [exec_section registry registering scheduling reporting].
      rewrite Hres. unfold after. rewrite Hrun.
      cbn [registry registering scheduling reporting snd].
      rewrite list_lookup_middle by done.
      unfold createCheckTask. rewrite Hc.
      cbn [registry registering scheduling reporting bind gets modify ret fst snd].
      rewrite list_lookup_middle by done.
      rewrite !delete_length_snoc. reflexivity.
  - destruct (RegisterCheck_result_misconfigured cfg now h) as (e & Hres); [eauto|].
    destruct (RegisterCheck_misconfigured cfg now h) as (e' & Hrun); [eauto|].
    by eapply Hbad.
Qed.

Lemma valid_sections_reachable guard sos : forall p,
  reachable_sections guard p ->
  valid_sections guard sos p = true ->
  reachable_sections guard (run_sections sos p).
Proof.
  induction sos as [|so sos IH]; intros p Hp Hvalid; [exact Hp|].
  simpl in Hvalid. destruct (crashed (registry p)) eqn:Hlive; [done|].
  apply andb_prop in Hvalid as [Hso Hrest]. apply andb_prop in Hso as [_ Hguard].
  simpl. apply IH; [|exact Hrest]. by apply sections_step.
Qed.

Lemma delete_app_lookup {A} (l k : list A) i x :
  l !! i = Some x -> delete i (l ++ k) = delete i l ++ k.
Proof.
  revert i. induction l as [|y l IH]; intros [|i] Hi; simpl in *; try done.
  by rewrite IH.
Qed.

Lemma names_accounted_New : names_accounted (mkProgram New [] [] []).
Proof.
  split; [done|]. split; [constructor|]. split; [by intros n Hn%elem_of_nil|].
  split; [by intros cfg Hcfg%elem_of_nil|]. intros _. split; [constructor | done].
Qed.

(** [names_accounted] only looks at the two maps, the crash flag and the
    four lists. *)
Lemma names_accounted_ext p p' :
  results (registry p') = results (registry p) ->
  checkTasks (registry p') = checkTasks (registry p) ->
  registering p' = registering p ->
  (crashed (registry p') = None ->
   crashed (registry p) = None /\ loop_name <$> running p' ≡ₚ loop_name <$> running p) ->
  names_accounted p -> names_accounted p'.
Proof.
  intros Hres Htasks Hreg Hrun (Hdom & Hnd & Hdisj & Hvalid & Hloops).
  unfold names_accounted. rewrite Hres, Htasks, Hreg.
  split; [done|]. split; [done|]. split; [done|]. split; [done|].
  intros Hlive'. destruct (Hrun Hlive') as [Hlive Hperm].
  destruct (Hloops Hlive) as [Hndr Hnames].
  split; [by rewrite Hperm|]. rewrite Hnames. symmetry. by apply list_to_set_perm_L.
Qed.

(** Moving a goroutine from one list of the program to the end of
    another keeps the names: [Hk] says where the goroutine was. *)
Ltac names_moved Hk :=
  let Hp := fresh "Hp" in
  let d := fresh "d" in
  pose proof (delete_Permutation _ _ _ Hk) as Hp;
  match type of Hp with _ ≡ₚ _ :: ?l => set (d := l) in * end;
  rewrite ?fmap_app; cbn [fmap list_fmap]; rewrite Hp, fmap_cons;
  solve_Permutation.

Ltac program_fields :=
  cbn [registry registering scheduling reporting set_registry crash
       results checkTasks checksListener healthListener fullChans nextChan goroutines crashed
       set_results set_checkTasks set_checksListener set_healthListener set_fullChans
       set_nextChan set_goroutines set_crashed].

Lemma names_accounted_step so p :
  crashed (registry p) = None ->
  registers_unused so p = true ->
  names_accounted p -> names_accounted (exec_section so p).
Proof.
  intros Hlive Hguard Hacc.
  pose proof Hacc as (Hdom & Hnd & Hdisj & Hvalid & Hloops).
  destruct (Hloops Hlive) as [Hndr Hnames].
  destruct p as [h reg sched rep].
  unfold running in Hndr, Hnames.
  cbn [registry registering scheduling reporting] in *.
  destruct so as [cfg now | k | k | i sel | k | o];
    cbn [exec_section registry registering scheduling reporting].
  - (* the result of a registration *)
    cbn [registers_unused registry registering] in Hguard.
    destruct (Check_ cfg) as [c|] eqn:Hc.
    + destruct (decide (Name c = "")) as [Hname|Hname].
      * destruct (RegisterCheck_result_misconfigured cfg now h) as (e & Hres); [eauto|].
        rewrite Hres. by eapply names_accounted_ext; [..|exact Hacc].
      * destruct (RegisterCheck_result_stores cfg now h c Hc Hname) as (r & Hres & _).
        rewrite Hres.
        destruct (checkTasks h !! Name c) eqn:Hnone; [done|].
        apply bool_decide_eq_true_1 in Hguard.
        unfold names_accounted, running. program_fields.
        assert (Hcfg : registering_name cfg = Name c) by (unfold registering_name; by rewrite Hc).
        rewrite fmap_app. simpl. rewrite Hcfg.
        split; [rewrite dom_insert_L, Hdom, list_to_set_app_L; set_solver|].
        split.
        { apply NoDup_app. split; [done|]. split; [|apply NoDup_singleton].
          by intros x Hx ->%list_elem_of_singleton. }
        split.
        { intros n [Hn | ->%list_elem_of_singleton]%elem_of_app; [by apply Hdisj|].
          by apply not_elem_of_dom. }
        split.
        { intros cfg' [Hin | ->%list_elem_of_singleton]%elem_of_app; [by apply Hvalid | eauto]. }
        intros _. done.
    + destruct (RegisterCheck_result_misconfigured cfg now h) as (e & Hres); [eauto|].
      rewrite Hres. by eapply names_accounted_ext; [..|exact Hacc].
  - (* the task of a registration *)
    destruct (reg !! k) as [cfg|] eqn:Hk; [|exact Hacc].
    destruct (Hvalid cfg) as (c & Hc); [by eapply list_elem_of_lookup_2|].
    unfold createCheckTask. rewrite Hc.
    cbn [bind gets modify ret fst snd].
    assert (Hcfg : registering_name cfg = Name c) by (unfold registering_name; by rewrite Hc).
    assert (Hk' : (registering_name <$> reg) !! k = Some (Name c))
      by (by rewrite list_lookup_fmap, Hk; simpl; rewrite Hcfg).
    assert (Hfresh : Name c ∉ dom (checkTasks h)).
    { apply Hdisj. by eapply list_elem_of_lookup_2. }
    unfold names_accounted, running. program_fields.
    rewrite list_fmap_delete, (list_to_set_delete_NoDup _ k (Name c) Hnd Hk'), dom_insert_L.
    split.
    { rewrite Hdom. apply set_eq. intros x.
      assert (Hx : Name c ∈ (list_to_set (registering_name <$> reg) : gset string))
        by (apply elem_of_list_to_set; by eapply list_elem_of_lookup_2).
      destruct (decide (x = Name c)) as [->|Hne]; set_solver. }
    split; [eapply sublist_NoDup; [exact Hnd | apply sublist_delete]|].
    split.
    { intros n Hn.
      assert (Hn' : n ∈ (list_to_set (registering_name <$> reg) ∖ {[Name c]} : gset string)).
      { rewrite <- (list_to_set_delete_NoDup _ k (Name c) Hnd Hk').
        by apply elem_of_list_to_set. }
      apply elem_of_difference in Hn' as [Hin Hne].
      apply elem_of_list_to_set, Hdisj in Hin. set_solver. }
    split; [intros cfg' Hin; by eapply Hvalid, elem_of_delete_sub|].
    intros _.
    replace (goroutines h ++ rep ++ sched ++
               [{| g_task := {| stopChan := nextChan h; ticker := None; check := c |};
                   g_cfg := cfg |}])
      with ((goroutines h ++ rep ++ sched) ++
               [{| g_task := {| stopChan := nextChan h; ticker := None; check := c |};
                   g_cfg := cfg |}])
      by (by rewrite <- !app_assoc).
    rewrite fmap_app. cbn [fmap list_fmap loop_name g_task check].
    split.
    + apply NoDup_app. split; [done|]. split; [|apply NoDup_singleton].
      intros x Hx ->%list_elem_of_singleton. apply Hfresh. rewrite Hnames.
      by apply elem_of_list_to_set.
    + rewrite list_to_set_app_L, Hnames. set_solver.
  - (* the go statement *)
    destruct (sched !! k) as [g|] eqn:Hk; [|exact Hacc].
    eapply names_accounted_ext; [..|exact Hacc]; try done.
    intros _. split; [done|]. unfold running.
    cbn [registry scheduling reporting goroutines after scheduleCheck modify snd
         set_goroutines].
    rewrite !fmap_app. cbn [fmap list_fmap loop_name g_task check].
    fold (loop_name g). names_moved Hk.
  - (* a goroutine at its select *)
    destruct (goroutines h !! i) as [g|] eqn:Hg; [|exact Hacc].
    assert (Hi : (loop_name <$> running (mkProgram h reg sched rep)) !! i = Some (loop_name g)).
    { unfold running. cbn [registry]. rewrite fmap_app, lookup_app_l.
      - by rewrite list_lookup_fmap, Hg.
      - rewrite length_fmap. by eapply lookup_lt_Some. }
    assert (Hin : loop_name g ∈ dom (checkTasks h)).
    { rewrite Hnames. apply elem_of_list_to_set. by eapply list_elem_of_lookup_2. }
    destruct sel as [|t [[[details cd] err]|v]].
    + (* stop *)
      cbn [runCheckOrStop stopCheckTask bind modify ret fst snd set_registry registry
           registering scheduling reporting].
      unfold names_accounted, running. program_fields.
      fold (loop_name g). rewrite !dom_delete_L.
      assert (Hnot : loop_name g ∉ registering_name <$> reg).
      { intros Hreg. by apply (Hdisj _ Hreg). }
      split; [rewrite Hdom; set_solver|].
      split; [done|].
      split; [intros n Hn; specialize (Hdisj n Hn); set_solver|].
      split; [done|].
      intros _.
      rewrite <- (delete_app_lookup _ (rep ++ sched) i g Hg), list_fmap_delete.
      split; [eapply sublist_NoDup; [exact Hndr | apply sublist_delete]|].
      rewrite Hnames. symmetry. by apply list_to_set_delete_NoDup.
    + (* an execution that returns *)
      destruct (checkAndUpdateResult_returns (g_task g) t details cd err h) as (r & _ & Hrun).
      unfold runCheckOrStop. unfold bind at 1. rewrite Hrun.
      cbn [ret set_registry registry registering scheduling reporting].
      unfold names_accounted, running. program_fields.
      fold (loop_name g). rewrite dom_insert_L.
      split; [rewrite Hdom; set_solver|].
      split; [done|]. split; [done|]. split; [done|].
      intros _.
      assert (Hperm : loop_name <$> delete i (goroutines h) ++ (rep ++ [g]) ++ sched
                      ≡ₚ loop_name <$> goroutines h ++ rep ++ sched).
      { names_moved Hg. }
      split; [by rewrite Hperm|]. rewrite Hnames. symmetry. by apply list_to_set_perm_L.
    + (* an execution that panics *)
      rewrite (surjective_pairing (runCheckOrStop _ _ _)).
      unfold runCheckOrStop. unfold bind at 1 2.
      rewrite checkAndUpdateResult_panics.
      cbn [fst snd]. program_fields.
      by eapply names_accounted_ext; [..|exact Hacc].
  - (* a goroutine reports *)
    destruct (rep !! k) as [g|] eqn:Hk; [|exact Hacc].
    unfold scheduleCheck_report, reportResults, NewTicker.
    destruct (ticker (g_task g)) as [d|];
      [|destruct (bool_decide (0 < ExecutionPeriod (g_cfg g)))];
      cbn [bind gets modify ret panic fst snd set_registry registry registering
           scheduling reporting].
    1,2: eapply names_accounted_ext; [..|exact Hacc]; try done;
      intros _; (split; [done|]); unfold running; program_fields;
      rewrite !fmap_app; cbn [fmap list_fmap loop_name g_task check];
      fold (loop_name g); names_moved Hk.
    by eapply names_accounted_ext; [..|exact Hacc].
  - (* a call *)
    destruct o as [cfg now | name | | | | i sel]; try exact Hacc;
      cbn [set_registry registry registering scheduling reporting exec_op].
    destruct (Deregister_after name h) as (Hres & Htasks & _ & Hgs & Hcr).
      cbv zeta in Hres, Htasks, Hgs, Hcr.
      apply (names_accounted_ext (mkProgram h reg sched rep));
        [exact Hres | exact Htasks | done | | exact Hacc].
      intros _. split; [done|]. unfold running.
      cbn [set_registry registry scheduling reporting exec_op].
      by rewrite Hgs.
Qed.

Lemma reachable_names_accounted p :
  reachable_sections registers_unused p -> names_accounted p.
Proof.
  induction 1 as [|p so _ IH Hlive Hguard]; [apply names_accounted_New|].
  by apply names_accounted_step.
Qed.

Ltac reach_by_sections guard sos :=
  apply (valid_sections_reachable guard sos program_New);
    [apply sections_New | vm_compute; reflexivity].

(** C7, as the code has it.  [RegisterCheck] stores the result in one
    critical section and the task in a later one, it accepts a name that
    is already registered, and the goroutine it supersedes keeps storing
    results.  So the two key sets agree only under a discipline of the
    callers, and only outside registrations.  Take the program one
    critical section at a time, in any interleaving in which
    [RegisterCheck] is never called for a name that has a task or that
    another call is registering.  Then between any two critical
    sections: the names of [results] are the names of [checkTasks]
    together with the names whose registration has stored its result and
    not yet its task; so every name with a task has a result, and the
    two maps have the same names whenever no registration is in
    progress.  The first part of a registration puts the name in
    [results] and leaves [checkTasks] alone; [createCheckTask] of a
    registration in progress puts the name in [checkTasks], after which
    it is in both maps.  And [stopCheckTask] deletes the name from both
    maps in its one critical section, leaving it absent from both. *)
Theorem maps_agree_outside_registrations (p : program) :
  reachable_sections registers_unused p ->
  dom (results (registry p))
    = dom (checkTasks (registry p)) ∪ list_to_set (registering_name <$> registering p) /\
  dom (checkTasks (registry p)) ⊆ dom (results (registry p)) /\
  (registering p = [] -> same_names (registry p)) /\
  (forall cfg now c,
     Check_ cfg = Some c -> Name c <> "" ->
     let p' := exec_section (soRegisterResult cfg now) p in
     is_Some (results (registry p') !! Name c) /\
     checkTasks (registry p') = checkTasks (registry p) /\
     registering p' = registering p ++ [cfg]) /\
  (forall k cfg,
     registering p !! k = Some cfg ->
     let p' := exec_section (soCreateTask k) p in
     is_Some (results (registry p') !! registering_name cfg) /\
     is_Some (checkTasks (registry p') !! registering_name cfg)) /\
  (forall name,
     results (after (stopCheckTask name) (registry p)) !! name = None /\
     checkTasks (after (stopCheckTask name) (registry p)) !! name = None).
Proof.
  intros Hreach.
  destruct (reachable_names_accounted p Hreach) as (Hdom & Hnd & Hdisj & Hvalid & Hloops).
  split; [exact Hdom|].
  split; [rewrite Hdom; set_solver|].
  split.
  { intros Hnone. unfold same_names. rewrite Hdom, Hnone. simpl. set_solver. }
  split.
  { intros cfg now c Hc Hname.
    destruct (RegisterCheck_result_stores cfg now (registry p) c Hc Hname) as (r & Hres & _).
    cbn [exec_section]. rewrite Hres. cbv zeta.
    cbn [registry registering results checkTasks].
    rewrite lookup_insert_eq. eauto. }
  split; [|intros name; apply stopCheckTask_deletes].
  intros k cfg Hk.
  destruct (Hvalid cfg) as (c & Hc); [by eapply list_elem_of_lookup_2|].
  assert (Hcfg : registering_name cfg = Name c) by (unfold registering_name; by rewrite Hc).
  cbn [exec_section]. rewrite Hk. unfold createCheckTask. rewrite Hc. cbv zeta.
  cbn [bind gets modify ret fst snd registry results checkTasks set_checkTasks set_nextChan].
  rewrite Hcfg, lookup_insert_eq. split; [|eauto].
  apply elem_of_dom. rewrite Hdom. apply elem_of_union_r, elem_of_list_to_set.
  rewrite <- Hcfg. apply list_elem_of_fmap_2. by eapply list_elem_of_lookup_2.
Qed.

Lemma maps_agree_outside_registrations_witness :
  dom (results (registry (run_sections sections_A_then_C program_New)))
  = dom (checkTasks (registry (run_sections sections_A_then_C program_New)))
    ∪ list_to_set
        (registering_name <$> registering (run_sections sections_A_then_C program_New)).
Proof.
  refine (proj1 (maps_agree_outside_registrations
                   (run_sections sections_A_then_C program_New) _)).
  reach_by_sections registers_unused sections_A_then_C.
Defined.

(** What the run of the witness leaves: A has a result and a task, C a
    result only, its registration being in progress. *)
Example sections_A_then_C_state :
  valid_sections registers_unused sections_A_then_C program_New = true /\
  dom (results (registry (run_sections sections_A_then_C program_New))) = {["A"; "C"]} /\
  dom (checkTasks (registry (run_sections sections_A_then_C program_New))) = {["A"]} /\
  registering (run_sections sections_A_then_C program_New) = [cfgC_passing].
Proof.
  split; [vm_compute; reflexivity|].
  split; [vm_compute; reflexivity|].
  split; vm_compute; reflexivity.
Qed.

(** Without the discipline not even the inclusion holds.  A is
    registered and deregistered; a second call of [RegisterCheck] for A
    stores its result; the first goroutine takes its stop case and
    deletes that result; then the second call stores its task.  Every
    step can be taken, A has a task and no result, and the second call
    is what the discipline rules out. *)
Lemma interleaved_registration_leaves_task_without_result :
  valid_sections any_section sections_A_reregistered program_New = true /\
  reachable_sections any_section (run_sections sections_A_reregistered program_New) /\
  is_Some (checkTasks (registry (run_sections sections_A_reregistered program_New)) !! "A") /\
  results (registry (run_sections sections_A_reregistered program_New)) !! "A" = None /\
  registering (run_sections sections_A_reregistered program_New) = [] /\
  valid_sections registers_unused sections_A_reregistered program_New = false.
Proof.
  split; [vm_compute; reflexivity|].
  split; [reach_by_sections any_section sections_A_reregistered|].
  split; [vm_compute; eauto|].
  split; [vm_compute; reflexivity|].
  split; vm_compute; reflexivity.
Qed.

(** C7 as stated fails: register A twice, deregister it, let the second
    goroutine stop, and let the first goroutine execute once more.  The
    state is reachable, A has a result and no task. *)
Lemma superseded_loop_restores_result :
  reachable (run run_A_twice New) /\
  is_Some (results (run run_A_twice New) !! "A") /\
  checkTasks (run run_A_twice New) !! "A" = None /\
  ~ same_names (run run_A_twice New).
Proof.
  assert (Hres : is_Some (results (run run_A_twice New) !! "A"))
    by (vm_compute; eauto).
  assert (Htask : checkTasks (run run_A_twice New) !! "A" = None)
    by (vm_compute; reflexivity).
  split; [|split; [exact Hres | split; [exact Htask|]]].
  - reach_by_run unguarded run_A_twice.
  - unfold same_names. intros Heq.
    apply elem_of_dom in Hres. rewrite Heq in Hres.
    apply elem_of_dom in Hres. rewrite Htask in Hres. by destruct Hres.
Qed.

(** The same happens when A is registered again after [Deregister] but
    before the cleanup: the stop of the first goroutine deletes the task
    of the second, which goes on storing results and can no longer be
    deregistered. *)
Lemma early_reregistration_loses_task :
  reachable (run run_A_again New) /\
  is_Some (results (run run_A_again New) !! "A") /\
  checkTasks (run run_A_again New) !! "A" = None /\
  length (goroutines (run run_A_again New)) = 1%nat /\
  after (Deregister "A") (run run_A_again New) = run run_A_again New.
Proof.
  split; [reach_by_run unguarded run_A_again|].
  split; [vm_compute; eauto|].
  split; [vm_compute; reflexivity|].
  split; vm_compute; reflexivity.
Qed.

(** ** Faults of an execution *)

(** C8, as the code has it.  Nothing in [health.go] recovers from a
    panic of [task.execute()]: [checkAndUpdateResult], [runCheckOrStop]
    and the goroutine's turn all end in that panic, having told the
    listener that the check started and recorded no result; the
    goroutine does not reach its next turn and the program is down. *)
Theorem execution_fault_propagates (g : goroutine) (t : Time) (v : any) (h : health) :
  let h1 := set_checksListener (fun l => l ++ [OnCheckStarted (loop_name g)]) h in
  checkAndUpdateResult (g_task g) t (Panicked v) h = (Panicked v, h1) /\
  runCheckOrStop (g_task g) (timerCase t (Panicked v)) h = (Panicked v, h1) /\
  scheduleCheck_turn g (timerCase t (Panicked v)) h = (Panicked v, h1) /\
  results h1 = results h /\
  (forall i,
     goroutines h !! i = Some g ->
     let h' := exec_op (opTurn i (timerCase t (Panicked v))) h in
     results h' = results h /\ goroutines h' = [] /\ crashed h' = Some v).
Proof.
  cbv zeta. do 4 (split; [reflexivity|]).
  intros i Hg. simpl. rewrite Hg. done.
Qed.

(** C8 as stated fails: A is registered as initially passing and its
    first execution panics.  The turn does not return, the result stored
    for A is still the healthy one of the registration, and no goroutine
    is left. *)
Lemma execution_fault_not_contained :
  ~ fault_contained goroutineA 110 (anyString "index out of range") registered_A_passing /\
  goroutines registered_A_passing !! 0%nat = Some goroutineA /\
  (let h' := exec_op (opTurn 0 (timerCase 110 fault)) registered_A_passing in
   results h' !! "A" = Some (mkResult (anyString initialResultMsg) None 100 0 0 None) /\
   goroutines h' = [] /\
   crashed h' = Some (anyString "index out of range")).
Proof.
  split.
  - intros (g' & h' & r & Hrun & _). rewrite turn_timer_panics in Hrun. discriminate.
  - split; [reflexivity|]. cbv zeta. repeat split; vm_compute; reflexivity.
Qed.

(** ** Every transition, case by case *)

Lemma exec_op_effect o h : effect o h (exec_op o h).
Proof.
  destruct o as [cfg now | name | | | | i sel]; simpl.
  - destruct (Check_ cfg) as [c|] eqn:Hc.
    + destruct (decide (Name c = "")) as [Hname|Hname].
      * destruct (RegisterCheck_misconfigured cfg now h) as (e & Hrun); [eauto|].
        unfold after. rewrite Hrun. by apply effect_idle.
      * destruct (RegisterCheck_registers cfg now h c Hc Hname) as (r & Hupd & Hrun).
        unfold after. rewrite Hrun. simpl.
        by eapply (effect_register _ _ _ cfg now c r).
    + destruct (RegisterCheck_misconfigured cfg now h) as (e & Hrun); [eauto|].
      unfold after. rewrite Hrun. by apply effect_idle.
  - unfold after, Deregister, bind, gets. simpl.
    destruct (checkTasks h !! name); by apply effect_idle.
  - by apply effect_idle.
  - by apply effect_idle.
  - by apply effect_idle.
  - destruct (goroutines h !! i) as [g|] eqn:Hg; [|by apply effect_idle].
    destruct sel as [|t [[[details cd] err]|v]].
    + rewrite turn_stop. by eapply effect_stop.
    + destruct (turn_timer_returns g t details cd err h)
        as (r & o & h' & Hupd & Hrun & Hres & Htasks & Hfull & Hnext & Hgs & Hcr & Hsame & Hnot).
      rewrite Hrun.
      destruct o as [[g'|]|v]; [| done |].
      * destruct (Hsame g' eq_refl) as [Hck Hch].
        eapply (effect_execute _ _ _ i g g' r); simpl; eauto.
        by rewrite Hgs.
      * eapply (effect_crash _ _ _ i g); simpl; eauto.
    + rewrite turn_timer_panics.
      eapply (effect_crash _ _ _ i g); simpl; eauto.
Qed.

(** ** Stop channels *)

(** What [DeregisterAll] leaves in the channels: what was there, and
    one value for each task of the map. *)
Lemma DeregisterAll_fullChans (s : gset nat) (tasks : gmap string checkTask) c :
  c ∈ map_fold (fun _ task acc => {[stopChan task]} ∪ acc) s tasks <->
  c ∈ s \/ exists name task, tasks !! name = Some task /\ stopChan task = c.
Proof.
  apply (map_fold_weak_ind (fun acc (m : gmap string checkTask) =>
    c ∈ acc <-> c ∈ s \/ exists name task, m !! name = Some task /\ stopChan task = c)).
  - split; [by left|]. intros [Hc | (name & task & Hm & _)]; [done|].
    by rewrite lookup_empty in Hm.
  - intros k task m acc Hk IH. rewrite elem_of_union, elem_of_singleton, IH. split.
    + intros [-> | [Hc | (name & task' & Hm & Hch)]].
      * right. exists k, task. by rewrite lookup_insert_eq.
      * by left.
      * right. exists name, task'. split; [|done].
        rewrite lookup_insert_ne; [done|]. intros ->. congruence.
    + intros [Hc | (name & task' & Hm & Hch)]; [by right; left|].
      destruct (decide (k = name)) as [->|Hne].
      * rewrite lookup_insert_eq in Hm. injection Hm as <-. by left.
      * rewrite lookup_insert_ne in Hm by done. right. right. eauto.
Qed.

Lemma exec_op_fullChans o h c :
  c ∈ fullChans (exec_op o h) ->
  c ∈ fullChans h \/ exists name task, checkTasks h !! name = Some task /\ stopChan task = c.
Proof.
  destruct o as [cfg now | name | | | | i sel]; simpl.
  - destruct (Check_ cfg) as [ck|] eqn:Hc.
    + destruct (decide (Name ck = "")) as [Hname|Hname].
      * destruct (RegisterCheck_misconfigured cfg now h) as (e & Hrun); [eauto|].
        unfold after. rewrite Hrun. by left.
      * destruct (RegisterCheck_registers cfg now h ck Hc Hname) as (r & _ & Hrun).
        unfold after. rewrite Hrun. by left.
    + destruct (RegisterCheck_misconfigured cfg now h) as (e & Hrun); [eauto|].
      unfold after. rewrite Hrun. by left.
  - unfold after, Deregister, bind, gets. simpl.
    destruct (checkTasks h !! name) as [task|] eqn:Htask; simpl; [|by left].
    rewrite elem_of_union, elem_of_singleton. intros [-> | Hc]; [|by left].
    right. eauto.
  - unfold after. simpl. by intros Hc%DeregisterAll_fullChans.
  - by left.
  - by left.
  - destruct (goroutines h !! i) as [g|] eqn:Hg; [|by left].
    destruct sel as [|t [[[details cd] err]|v]].
    + rewrite turn_stop. simpl. rewrite elem_of_difference. intros [Hc _]. by left.
    + destruct (turn_timer_returns g t details cd err h)
        as (r & o & h' & _ & Hrun & _ & _ & Hfull & _).
      rewrite Hrun. intros Hc. left. rewrite <- Hfull.
      by destruct o as [[g'|]|v].
    + rewrite turn_timer_panics. by left.
Qed.

Lemma reachable_full_chans_made guard h : reachable_if guard h -> full_chans_made h.
Proof.
  induction 1 as [|h o Hreach IH Hlive _ _]; [intros c; simpl; set_solver|].
  intros c Hc.
  assert (Hnext : (nextChan h <= nextChan (exec_op o h))%nat).
  { destruct (exec_op_transition o h Hlive)
      as [_ _ Hn _ | ? ? ? ? ? ? ? ? ? _ _ _ _ _ _ Hn _ _
         | ? ? ? ? ? ? ? ? ? _ _ _ _ _ Hn _ | ? ? _ _ _ Hn _ _]; rewrite Hn; lia. }
  apply exec_op_fullChans in Hc as [Hc | (name & task & Htask & <-)].
  - specialize (IH c Hc). lia.
  - pose proof (reachable_chans_made _ _ Hreach _ _ Htask). lia.
Qed.


(** ** Deregistration *)



Lemma gone_preserved name o h :
  registers_name name o = false -> gone name h -> gone name (exec_op o h).
Proof.
  intros Hreg [Hres Hgs]. unfold gone.
  destruct (exec_op_effect o h)
    as [Hr _ _ Hg _ _ _
       | cfg now c r -> Hc Hname Hr _ _ _ Hg _
       | i g g' r t e _ Hi Hr _ _ _ Hg Hck _ _
       | i g _ Hi Hr _ _ _ Hg _ _ _
       | i g t e v _ Hi _ Hg _ Hr].
  - by rewrite Hr, Hg.
  - simpl in Hreg. rewrite Hc in Hreg. apply bool_decide_eq_false in Hreg.
    rewrite Hr, Hg. split; [by rewrite lookup_insert_ne|].
    intros g0 [Hin | ->%list_elem_of_singleton]%elem_of_app; [by apply Hgs | done].
  - assert (loop_name g <> name) by (apply Hgs; by eapply list_elem_of_lookup_2).
    rewrite Hr, Hg. split; [by rewrite lookup_insert_ne|].
    intros g0 Hin. apply list_elem_of_lookup in Hin as (j & Hj).
    destruct (decide (i = j)) as [->|Hne].
    + rewrite list_lookup_insert_eq in Hj by (by eapply lookup_lt_Some).
      injection Hj as <-. unfold loop_name in *. by rewrite Hck.
    + rewrite list_lookup_insert_ne in Hj by done.
      apply Hgs. by eapply list_elem_of_lookup_2.
  - rewrite Hr, Hg. split.
    + apply lookup_delete_None. by right.
    + intros g0 Hin. apply Hgs. by eapply elem_of_delete_sub.
  - assert (loop_name g <> name) by (apply Hgs; by eapply list_elem_of_lookup_2).
    rewrite Hg. split; [|intros g0 Hin; by apply elem_of_nil in Hin].
    destruct Hr as [-> | (r & ->)]; [done | by rewrite lookup_insert_ne].
Qed.

(** X2. While no registered name is registered again: once a goroutine
    has taken its stop case, its check stays removed.  Whatever the
    clients and the other goroutines do afterwards, short of registering
    that name anew, the name has no result and no goroutine runs it. *)
Theorem stopped_check_stays_removed (h : health) (i : nat) (g : goroutine) (os : list op) :
  reachable_fresh h ->
  crashed h = None ->
  goroutines h !! i = Some g ->
  forallb (fun o => negb (registers_name (loop_name g) o)) os = true ->
  gone (loop_name g) (run os (exec_op (opTurn i stopCase) h)).
Proof.
  intros Hreach Hlive Hg Hos.
  destruct (reachable_fresh_names_agree h Hreach) as [_ Hloops].
  destruct (Hloops Hlive) as [Hnd _].
  assert (Hgone : gone (loop_name g) (exec_op (opTurn i stopCase) h)).
  { cbn [exec_op]. rewrite Hg, turn_stop. split; simpl; [by rewrite lookup_delete_eq|].
    intros g0 Hin. eapply NoDup_fmap_delete_ne; eauto. }
  clear Hg Hnd Hloops Hreach Hlive.
  revert Hgone. generalize (exec_op (opTurn i stopCase) h) as h1.
  induction os as [|o os IH]; intros h1 Hgone; [exact Hgone|].
  simpl in Hos. apply andb_true_iff in Hos as [Ho Hos].
  simpl. apply IH; [exact Hos|].
  apply gone_preserved; [|exact Hgone]. by apply negb_true_iff.
Qed.

Lemma stopped_check_stays_removed_witness :
  gone "C" (run run_after_stop (exec_op (opTurn 1 stopCase) (run run_C_deregistered New))).
Proof.
  apply (stopped_check_stays_removed (run run_C_deregistered New) 1 goroutineC
           run_after_stop).
  - reach_by_run registers_fresh run_C_deregistered.
  - vm_compute. reflexivity.
  - vm_compute. reflexivity.
  - vm_compute. reflexivity.
Defined.

(** X3. Registering a name that has neither a result nor a task,
    deregistering it and letting its goroutine take the stop case is a
    valid run that gives back the two maps, the goroutines and the
    channels as they were. *)
Theorem register_deregister_stop_round_trip
    (h : health) (cfg : Config) (now : Time) (c : Check) :
  reachable h ->
  crashed h = None ->
  Check_ cfg = Some c ->
  Name c <> "" ->
  results h !! Name c = None ->
  checkTasks h !! Name c = None ->
  let os := [opRegisterCheck cfg now; opDeregister (Name c);
             opTurn (length (goroutines h)) stopCase] in
  valid_run unguarded os h = true /\
  results (run os h) = results h /\
  checkTasks (run os h) = checkTasks h /\
  goroutines (run os h) = goroutines h /\
  fullChans (run os h) = fullChans h /\
  crashed (run os h) = None.
Proof.
  intros Hreach Hlive Hc Hname Hres Htask os.
  assert (Hroom : nextChan h ∉ fullChans h).
  { intros Hin. apply (reachable_full_chans_made _ _ Hreach) in Hin. lia. }
  destruct (RegisterCheck_registers cfg now h c Hc Hname) as (r & _ & Hrun).
  set (task := mkCheckTask (nextChan h) None c).
  set (h1 := mkHealth (<[Name c := r]> (results h)) (<[Name c := task]> (checkTasks h))
               (checksListener h ++ [OnCheckRegistered (Name c) r]) (healthListener h)
               (fullChans h) (S (nextChan h)) (goroutines h ++ [mkGoroutine task cfg])
               (crashed h)).
  assert (H1 : exec_op (opRegisterCheck cfg now) h = h1).
  { cbn [exec_op]. unfold after. by rewrite Hrun. }
  set (h2 := set_fullChans (fun s => {[nextChan h]} ∪ s) h1).
  assert (H2 : exec_op (opDeregister (Name c)) h1 = h2).
  { cbn [exec_op]. unfold after, Deregister, bind, gets. simpl.
    by rewrite lookup_insert_eq. }
  assert (Hg : goroutines h2 !! length (goroutines h) = Some (mkGoroutine task cfg)).
  { simpl. by rewrite list_lookup_middle. }
  assert (H3 : exec_op (opTurn (length (goroutines h)) stopCase) h2
               = set_goroutines (fun gs => delete (length (goroutines h)) gs)
                   (snd (scheduleCheck_turn (mkGoroutine task cfg) stopCase h2))).
  { cbn [exec_op]. by rewrite Hg, turn_stop. }
  assert (Hrun3 : run os h = exec_op (opTurn (length (goroutines h)) stopCase) h2).
  { unfold os, run. cbn [fold_left]. by rewrite H1, H2. }
  split.
  - unfold os. cbn [valid_run]. rewrite Hlive, H1.
    replace (crashed h1) with (@None any) by (symmetry; exact Hlive).
    rewrite H2. replace (crashed h2) with (@None any) by (symmetry; exact Hlive).
    cbn [enabled unguarded]. rewrite Hg.
    replace (checkTasks h1 !! Name c) with (Some task)
      by (symmetry; apply lookup_insert_eq).
    rewrite !bool_decide_eq_true_2; [done | simpl; set_solver | done].
  - rewrite Hrun3, H3, turn_stop. simpl.
    rewrite !delete_insert_id by done.
    split; [done|]. split; [done|]. split.
    + apply delete_length_snoc.
    + split; [set_solver | done].
Qed.

Lemma register_deregister_stop_round_trip_witness :
  results (run [opRegisterCheck cfgC_passing 120; opDeregister "C"; opTurn 1 stopCase]
               executed_A_failing)
  = results executed_A_failing.
Proof.
  refine (proj1 (proj2 (register_deregister_stop_round_trip executed_A_failing
                          cfgC_passing 120 checkC _ _ _ _ _ _))).
  - reach_by_run unguarded run_A_failing.
  - vm_compute. reflexivity.
  - reflexivity.
  - discriminate.
  - vm_compute. reflexivity.
  - vm_compute. reflexivity.
Defined.

Lemma Deregister_each (rs : gmap string Result) (tasks : gmap string checkTask)
    cl hl nc gs cr (l : list (string * checkTask)) : forall s,
  (forall n t, (n, t) ∈ l -> tasks !! n = Some t) ->
  foldr (fun name h' => after (Deregister name) h') (mkHealth rs tasks cl hl s nc gs cr) l.*1
  = mkHealth rs tasks cl hl
      (foldr (fun p acc => {[stopChan p.2]} ∪ acc) s l) nc gs cr.
Proof.
  induction l as [|[n t] l IH]; intros s Hl; [done|].
  simpl. rewrite IH by (intros n' t' Hin; apply Hl; by right).
  unfold after, Deregister, bind, gets. simpl.
  rewrite (Hl n t) by left. done.
Qed.

(** X4. [DeregisterAll] does what a call of [Deregister] for each
    currently registered name does: the state it leaves is the one left
    by deregistering, one after the other, the names of [checkTasks],
    each of them once. *)
Theorem DeregisterAll_is_Deregister_of_each (h : health) :
  let names := (map_to_list (checkTasks h)).*1 in
  after DeregisterAll h = foldr (fun name h' => after (Deregister name) h') h names /\
  NoDup names /\
  (forall name, name ∈ names <-> is_Some (checkTasks h !! name)).
Proof.
  cbv zeta. split; [|split].
  - destruct h as [rs tasks cl hl s nc gs cr]. cbn [checkTasks].
    rewrite Deregister_each by (intros n t Hin; by apply elem_of_map_to_list).
    unfold after, DeregisterAll, bind, gets, modify, set_fullChans.
    cbn [snd results checkTasks checksListener healthListener fullChans nextChan
         goroutines crashed].
    f_equal. rewrite map_fold_foldr.
    induction (map_to_list tasks) as [|[n t] l IH]; [done|].
    simpl. by rewrite IH.
  - apply NoDup_fst_map_to_list.
  - intros name. rewrite list_elem_of_fmap. split.
    + intros ([n t] & -> & Hin). apply elem_of_map_to_list in Hin. eauto.
    + intros [t Ht]. exists (name, t). split; [done|]. by apply elem_of_map_to_list.
Qed.



(** X6. [Deregister] removes nothing by itself: the cleanup is left to
    the goroutine.  Where its send can proceed (the name has no task, or
    the stop channel of its task is not full; at a full channel the call
    blocks until the goroutine receives), the call returns, and after it
    [Results] and [IsHealthy] answer as before (the deregistered check
    is still listed); for a name that has no task the state is
    untouched. *)
Theorem Deregister_is_asynchronous (name : string) (h : health) :
  enabled (opDeregister name) h = true ->
  exists h',
    Deregister name h = (Returned tt, h') /\
    fst (Results h') = fst (Results h) /\
    fst (IsHealthy h') = fst (IsHealthy h) /\
    checkTasks h' = checkTasks h /\
    goroutines h' = goroutines h /\
    (checkTasks h !! name = None -> h' = h).
Proof.
  intros _. unfold Deregister, bind, gets. simpl.
  destruct (checkTasks h !! name) as [task|]; eexists; (split; [reflexivity|]); done.
Qed.

Lemma Deregister_is_asynchronous_witness :
  exists h',
    Deregister "A" executed_A_failing = (Returned tt, h') /\
    fst (Results h') = fst (Results executed_A_failing) /\
    fst (IsHealthy h') = fst (IsHealthy executed_A_failing) /\
    checkTasks h' = checkTasks executed_A_failing /\
    goroutines h' = goroutines executed_A_failing /\
    (checkTasks executed_A_failing !! "A" = None -> h' = executed_A_failing).
Proof.
  apply (Deregister_is_asynchronous "A" executed_A_failing).
  vm_compute. reflexivity.
Defined.

(** ** Executions *)

Lemma copyResultsMap_id (m : gmap string Result) : copyResultsMap m = m.
Proof.
  unfold copyResultsMap.
  apply (map_fold_weak_ind (fun acc (m : gmap string Result) => acc = m)); [done|].
  intros k v m' acc _ ->. done.
Qed.

Lemma updateResult_fields name details cd err t h r h' :
  updateResult name details cd err t h = (Returned r, h') ->
  Details r = details /\ Duration r = cd /\ Timestamp r = t /\
  Error r = newMarshalableError err.
Proof.
  intros Hrun. destruct err as [e|].
  - destruct (results h !! name) as [prev|] eqn:Hprev.
    + rewrite (updateResult_next _ _ _ _ _ _ _ Hprev) in Hrun. by injection Hrun as <- _.
    + rewrite (updateResult_first _ _ _ _ _ _ Hprev) in Hrun. by injection Hrun as <- _.
  - rewrite updateResult_healthy in Hrun. by injection Hrun as <- _.
Qed.

(** The whole state after a turn whose execution returned. *)
Lemma turn_returned_state g t details cd err h :
  exists r,
    updateResult (loop_name g) details cd err t
      (set_checksListener (fun l => l ++ [OnCheckStarted (loop_name g)]) h)
      = (Returned r,
         set_results (insert (loop_name g) r)
           (set_checksListener (fun l => l ++ [OnCheckStarted (loop_name g)]) h)) /\
    scheduleCheck_turn g (timerCase t (Returned (details, cd, err))) h =
    (turn_end g,
     mkHealth (<[loop_name g := r]> (results h)) (checkTasks h)
       (checksListener h ++ [OnCheckStarted (loop_name g); OnCheckCompleted (loop_name g) r])
       (healthListener h ++ [<[loop_name g := r]> (results h)])
       (fullChans h) (nextChan h) (goroutines h) (crashed h)).
Proof.
  destruct (checkAndUpdateResult_returns (g_task g) t details cd err h) as (r & Hupd & Hrun).
  exists r. split; [exact Hupd|].
  unfold scheduleCheck_turn, runCheckOrStop.
  unfold bind at 1. unfold bind at 1. rewrite Hrun. cbn [ret negb].
  unfold bind at 1. unfold reportResults, bind at 1, gets, modify.
  cbn [results]. rewrite copyResultsMap_id. unfold turn_end, loop_name.
  destruct (ticker (g_task g)) as [d|]; [reflexivity|].
  unfold NewTicker. by destruct (bool_decide (0 < ExecutionPeriod (g_cfg g))).
Qed.

Lemma turn_end_continues_or_panics g :
  turn_end g <> Returned None.
Proof.
  unfold turn_end. destruct (ticker (g_task g)); [done|].
  by destruct (bool_decide (0 < ExecutionPeriod (g_cfg g))).
Qed.

(** What [reportResults] does, whatever the state it finds: the
    health listener gets a copy of the result map as it is then, and
    nothing else changes. *)
Lemma reportResults_snapshot h :
  exists h',
    reportResults h = (Returned tt, h') /\
    healthListener h' = healthListener h ++ [results h] /\
    results h' = results h /\
    checkTasks h' = checkTasks h /\
    checksListener h' = checksListener h /\
    fullChans h' = fullChans h /\
    goroutines h' = goroutines h /\
    crashed h' = crashed h.
Proof.
  eexists. split; [reflexivity|]. cbn [healthListener set_healthListener snd].
  simpl. by rewrite copyResultsMap_id.
Qed.

(** X7. A turn whose execution returns never ends the loop, and what it
    does falls in two critical sections.  [checkAndUpdateResult] tells
    the checks listener that the check started, has [updateResult] store
    under the check's name a result with the reported details, duration
    and error and the time the timer delivered (the results of all other
    names and the task map are left alone), and tells the checks
    listener that the check completed with the result [updateResult]
    returned.  [reportResults] takes the lock again: the health
    listener gets a copy of the result map as it is at that time,
    whatever has happened to it since the result was stored, and nothing
    else changes. *)
Theorem completed_execution_is_stored_then_reported
    (g : goroutine) (t : Time) (details : any) (cd : GoDuration) (err : option error)
    (h : health) :
  fst (scheduleCheck_turn g (timerCase t (Returned (details, cd, err))) h) <> Returned None /\
  (exists r hu,
     updateResult (loop_name g) details cd err t
       (set_checksListener (fun l => l ++ [OnCheckStarted (loop_name g)]) h)
       = (Returned r, hu) /\
     runCheckOrStop (g_task g) (timerCase t (Returned (details, cd, err))) h
       = (Returned true,
          set_checksListener (fun l => l ++ [OnCheckCompleted (loop_name g) r]) hu) /\
     results hu !! loop_name g = Some r /\
     Details r = details /\ Duration r = cd /\ Timestamp r = t /\
     Error r = newMarshalableError err /\
     (forall n, n <> loop_name g -> results hu !! n = results h !! n) /\
     checkTasks hu = checkTasks h /\
     healthListener hu = healthListener h) /\
  (forall h2, exists h3,
     reportResults h2 = (Returned tt, h3) /\
     healthListener h3 = healthListener h2 ++ [results h2] /\
     results h3 = results h2 /\
     checkTasks h3 = checkTasks h2 /\
     checksListener h3 = checksListener h2).
Proof.
  destruct (turn_returned_state g t details cd err h) as (r & Hupd & Hrun).
  destruct (updateResult_fields _ _ _ _ _ _ _ _ Hupd) as (Hd & Hdur & Hts & Herr).
  split; [rewrite Hrun; apply turn_end_continues_or_panics|].
  split.
  - exists r. eexists. split; [exact Hupd|].
    split.
    { unfold runCheckOrStop, checkAndUpdateResult, execute.
      unfold bind at 1. unfold bind at 1. unfold modify at 1. unfold bind at 1.
      unfold bind at 1. unfold loop_name in Hupd. rewrite Hupd. reflexivity. }
    cbn [results checkTasks healthListener set_results set_checksListener].
    split; [apply lookup_insert_eq|]. do 4 (split; [done|]).
    split; [|done]. intros n Hn. by rewrite lookup_insert_ne.
  - intros h2. destruct (reportResults_snapshot h2) as (h3 & H1 & H2 & H3 & H4 & H5 & _).
    by exists h3.
Qed.

(** X8. The registry's own code panics in one place only.  If a turn of
    a goroutine ends in a panic, either the execution of the check
    panicked with that value, or the ticker was about to be created with
    a non-positive [ExecutionPeriod]. *)
Theorem turn_panics_only_on_fault_or_bad_period
    (g : goroutine) (sel : select_case) (h h' : health) (v : any) :
  scheduleCheck_turn g sel h = (Panicked v, h') ->
  (exists t, sel = timerCase t (Panicked v)) \/
  (ticker (g_task g) = None /\ ExecutionPeriod (g_cfg g) <= 0 /\
   v = anyString "non-positive interval for NewTicker").
Proof.
  destruct sel as [|t [[[details cd] err]|v']].
  - rewrite turn_stop. discriminate.
  - destruct (turn_returned_state g t details cd err h) as (r & _ & ->).
    unfold turn_end. intros Hrun. right.
    destruct (ticker (g_task g)) as [d|]; [discriminate|].
    destruct (bool_decide (0 < ExecutionPeriod (g_cfg g))) eqn:Hpos; [discriminate|].
    apply bool_decide_eq_false in Hpos. injection Hrun as <- _.
    split; [done|]. split; [lia | done].
  - rewrite turn_timer_panics. intros [= -> _]. left. by exists t.
Qed.

Lemma turn_panics_only_on_fault_or_bad_period_witness :
  (exists t, timerCase 110 fault = timerCase t (Panicked (anyString "index out of range"))) \/
  (ticker (g_task goroutineA) = None /\ ExecutionPeriod (g_cfg goroutineA) <= 0 /\
   anyString "index out of range" = anyString "non-positive interval for NewTicker").
Proof.
  apply (turn_panics_only_on_fault_or_bad_period goroutineA (timerCase 110 fault)
           registered_A_passing
           (set_checksListener (fun l => l ++ [OnCheckStarted "A"]) registered_A_passing)).
  reflexivity.
Defined.

(** X9. [RegisterCheck] does not look at [ExecutionPeriod].  A check
    registered with a period that is not positive is accepted, its first
    execution is stored and reported, and then the goroutine panics in
    [time.NewTicker]: the program is down. *)
Theorem nonpositive_period_crashes_after_first_execution
    (h : health) (cfg : Config) (now t : Time) (c : Check)
    (details : any) (cd : GoDuration) (err : option error) :
  Check_ cfg = Some c ->
  Name c <> "" ->
  ExecutionPeriod cfg <= 0 ->
  let h1 := exec_op (opRegisterCheck cfg now) h in
  let h2 := exec_op (opTurn (length (goroutines h))
                       (timerCase t (Returned (details, cd, err)))) h1 in
  fst (RegisterCheck cfg now h) = Returned None /\
  (exists r, results h2 !! Name c = Some r /\ Timestamp r = t /\
             last (healthListener h2) = Some (results h2)) /\
  crashed h2 = Some (anyString "non-positive interval for NewTicker") /\
  goroutines h2 = [].
Proof.
  intros Hc Hname Hperiod h1 h2.
  destruct (RegisterCheck_registers cfg now h c Hc Hname) as (r0 & _ & Hrun).
  split; [by rewrite Hrun|].
  set (g := mkGoroutine (mkCheckTask (nextChan h) None c) cfg).
  assert (Hg : goroutines h1 !! length (goroutines h) = Some g).
  { unfold h1. cbn [exec_op]. unfold after. rewrite Hrun. simpl.
    by rewrite list_lookup_middle. }
  destruct (turn_returned_state g t details cd err h1) as (r & Hupd & Hturn).
  destruct (updateResult_fields _ _ _ _ _ _ _ _ Hupd) as (_ & _ & Hts & _).
  assert (Hend : turn_end g = Panicked (anyString "non-positive interval for NewTicker")).
  { unfold turn_end. simpl. by rewrite bool_decide_eq_false_2 by lia. }
  rewrite Hend in Hturn.
  unfold h2. cbn [exec_op]. rewrite Hg, Hturn. simpl.
  split; [|done]. exists r.
  split; [apply lookup_insert_eq|]. split; [exact Hts|]. apply last_snoc.
Qed.

Lemma nonpositive_period_crashes_after_first_execution_witness :
  crashed (run [opRegisterCheck cfgA_period0 100; opTurn 0 (timerCase 110 fine)] New)
  = Some (anyString "non-positive interval for NewTicker").
Proof.
  refine (proj1 (proj2 (proj2 (nonpositive_period_crashes_after_first_execution New
            cfgA_period0 100 110 checkA (anyString "up") 3 None _ _ _)))).
  - reflexivity.
  - discriminate.
  - vm_compute. discriminate.
Defined.

(** ** Aggregate health after a change *)

(** X10. What [Results] reports right after [updateResult]: the
    aggregate is healthy iff the recorded error is nil and every result
    stored under another name is healthy.  One failing outcome turns the
    aggregate unhealthy whatever the other checks say. *)
Theorem health_after_updateResult
    (name : string) (details : any) (cd : GoDuration) (err : option error) (t : Time)
    (h : health) :
  exists r h' copy b,
    updateResult name details cd err t h = (Returned r, h') /\
    Results h' = (Returned (copy, b), h') /\
    copy !! name = Some r /\
    (b = true <->
     err = None /\
     forall n r', n <> name -> results h !! n = Some r' -> Error r' = None).
Proof.
  destruct (updateResult_returns name details cd err t h) as (r & Hrun & Herr & _).
  destruct (Results_fold (<[name := r]> (results h))) as [Hcopy Hb].
  eexists r, _, _, _. split; [exact Hrun|].
  split; [unfold Results, bind, gets, ret; cbn [results set_results];
          rewrite (surjective_pairing (map_fold _ _ _)) at 1; reflexivity|].
  split; [rewrite Hcopy; apply lookup_insert_eq|].
  rewrite Hb. split.
  - intros Hall. split.
    + apply newMarshalableError_nil. rewrite <- Herr.
      apply (Hall name). apply lookup_insert_eq.
    + intros n r' Hn Hr'. apply (Hall n). by rewrite lookup_insert_ne.
  - intros [Hnil Hothers] n r'. destruct (decide (name = n)) as [->|Hne].
    + rewrite lookup_insert_eq. intros [= <-]. rewrite Herr.
      by apply newMarshalableError_nil.
    + rewrite lookup_insert_ne by done. by apply Hothers.
Qed.

(** X11. What [Results] reports right after a goroutine took its stop
    case: the copy no longer lists the check, and the aggregate is
    healthy iff every result stored under another name is healthy.
    Removing the only failing check makes the system healthy. *)
Theorem health_after_stop (g : goroutine) (h : health) :
  exists out h' copy b,
    scheduleCheck_turn g stopCase h = (out, h') /\
    out = Returned None /\
    Results h' = (Returned (copy, b), h') /\
    copy = delete (loop_name g) (results h) /\
    (b = true <->
     forall n r, n <> loop_name g -> results h !! n = Some r -> Error r = None).
Proof.
  destruct (Results_fold (delete (loop_name g) (results h))) as [Hcopy Hb].
  eexists _, _, _, _. split; [apply turn_stop|]. split; [done|].
  split; [unfold Results, bind, gets, ret; cbn [results];
          rewrite (surjective_pairing (map_fold _ _ _)) at 1; reflexivity|].
  split; [exact Hcopy|].
  fold (loop_name g). rewrite Hb. split.
  - intros Hall n r Hn Hr. apply (Hall n). by rewrite lookup_delete_ne.
  - intros Hothers n r Hr. apply lookup_delete_Some in Hr as [Hn Hr]. eauto.
Qed.

(** ** Dates *)

Lemma times_ascend_snoc ns o :
  times_ascend (ns ++ [o]) ->
  times_ascend ns /\ (forall p, last ns = Some p -> o_time p <= o_time o).
Proof.
  intros Hasc. split.
  - intros i j oi oj Hij Hi Hj.
    apply (Hasc i j); [done | |]; by apply lookup_app_l_Some.
  - intros p Hp. rewrite last_lookup in Hp.
    destruct ns as [|n ns]; [done|].
    apply (Hasc (pred (length (n :: ns))) (length (n :: ns)));
      [simpl; lia | by apply lookup_app_l_Some | by rewrite list_lookup_middle].
Qed.

Lemma dated_record name (o : outcome) (h : health) (ns : list outcome) :
  dated name (results h) ns ->
  (o_name o = name -> forall p, last ns = Some p -> o_time p <= o_time o) ->
  dated name (results (after (record_outcome o) h))
        (ns ++ filter (fun x => o_name x = name) [o]).
Proof.
  unfold dated. intros IH Hlate.
  destruct (updateResult_returns (o_name o) (o_details o) (o_duration o) (o_err o)
              (o_time o) h) as (r & Hrun & _).
  destruct (decide (o_name o = name)) as [Heq|Hne].
  - rewrite filter_cons_True by done. rewrite filter_nil, last_snoc.
    unfold after, record_outcome.
    destruct (o_err o) as [e|] eqn:Herr.
    + destruct (results h !! name) as [prev|] eqn:Hprev.
      * rewrite <- Heq in Hprev.
        rewrite (updateResult_next _ _ _ _ _ _ _ Hprev). simpl.
        rewrite Heq, lookup_insert_eq. simpl. split; [done|].
        destruct IH as [Hlast Hfirst].
        destruct (Result_IsHealthy prev); [intros tf [= <-]; lia|].
        intros tf Htf. specialize (Hfirst tf Htf).
        destruct (last ns) as [p|] eqn:Hp; [|done].
        injection Hlast as Hlast. specialize (Hlate Heq p eq_refl). lia.
      * rewrite <- Heq in Hprev.
        rewrite (updateResult_first _ _ _ _ _ _ Hprev). simpl.
        rewrite Heq, lookup_insert_eq. simpl. split; [done|].
        intros tf [= <-]. lia.
    + rewrite updateResult_healthy. simpl.
      rewrite Heq, lookup_insert_eq. simpl. by split.
  - rewrite filter_cons_False by done. rewrite filter_nil, app_nil_r.
    unfold after, record_outcome. rewrite Hrun. simpl.
    rewrite lookup_insert_ne by done. exact IH.
Qed.

Lemma record_all_dated name h :
  results h !! name = None ->
  forall os,
    times_ascend (filter (fun o => o_name o = name) os) ->
    dated name (results (record_all os h)) (filter (fun o => o_name o = name) os).
Proof.
  intros Hnone os. induction os as [|o os IH] using rev_ind; intros Hasc.
  - unfold dated. simpl. by rewrite Hnone.
  - rewrite record_all_snoc, filter_app. rewrite filter_app in Hasc.
    destruct (decide (o_name o = name)) as [Heq|Hne].
    + rewrite filter_cons_True, filter_nil in Hasc by done.
      apply times_ascend_snoc in Hasc as [Hasc Hlate].
      apply dated_record; [by apply IH | by intros _].
    + rewrite filter_cons_False, filter_nil, app_nil_r in Hasc by done.
      apply dated_record; [by apply IH | done].
Qed.

(** X12. If the clock readings handed to [updateResult] for a name
    never go back, then, starting without a result for the name, the
    stored result is dated by the latest outcome of that name and its
    [TimeOfFirstFailure], when set, is not later than its [Timestamp]. *)
Theorem first_failure_not_after_timestamp
    (name : string) (h : health) (os : list outcome) (r : Result) :
  results h !! name = None ->
  times_ascend (filter (fun o => o_name o = name) os) ->
  results (record_all os h) !! name = Some r ->
  o_time <$> last (filter (fun o => o_name o = name) os) = Some (Timestamp r) /\
  forall tf, TimeOfFirstFailure r = Some tf -> tf <= Timestamp r.
Proof.
  intros Hnone Hasc Hr.
  pose proof (record_all_dated name h Hnone os Hasc) as Hd.
  unfold dated in Hd. by rewrite Hr in Hd.
Qed.

Lemma first_failure_not_after_timestamp_witness :
  o_time <$> last (filter (fun o => o_name o = "A") outcomes_example)
  = Some (Timestamp
            (mkResult (anyString "down") (Some (marshalableError "boom")) 50 3 2 (Some 40))).
Proof.
  refine (proj1 (first_failure_not_after_timestamp "A" New outcomes_example _ _ _ _)).
  - reflexivity.
  - intros i j oi oj Hij Hi Hj.
    destruct i as [|[|[|[|i]]]]; destruct j as [|[|[|[|j]]]];
      vm_compute in Hi; vm_compute in Hj; try discriminate; try lia;
      injection Hi as <-; injection Hj as <-; vm_compute; discriminate.
  - vm_compute. reflexivity.
Defined.

(** ** The options of the check listener *)

(** X13. Applying any sequence of the options of this file, in order,
    leaves the listener with the classification set by the last option
    of the sequence that sets one, and with its own classification when
    there is none; [WithDefaults] has no effect wherever it stands. *)
Theorem last_classification_option_wins (calls : list option_call) (listener : CheckListener) :
  classification (apply_options (build <$> calls) listener) =
  default (classification listener) (last (omap classification_set calls)).
Proof.
  induction calls as [|o calls IH] using rev_ind; [done|].
  rewrite fmap_app. unfold apply_options in *. rewrite fold_left_app. simpl.
  rewrite omap_app.
  destruct o; simpl; rewrite ?last_snoc, ?app_nil_r; try done.
Qed.

(** ** The registry before and at registration *)

Lemma idle_preserved o h : registers o = false -> idle h -> idle (exec_op o h).
Proof.
  intros Hreg (Hres & Htasks & Hgs & Hfull & Hcr).
  assert (Hfull' : fullChans (exec_op o h) = ∅).
  { apply set_eq. intros c. split; [|set_solver].
    intros [Hc | (name & task & Htask & _)]%exec_op_fullChans; [by rewrite Hfull in Hc|].
    by rewrite Htasks, lookup_empty in Htask. }
  unfold idle.
  destruct (exec_op_effect o h)
    as [Hr Ht _ Hg Hc _ _
       | cfg now c r -> Hck Hname _ _ _ _ _ _
       | i g g' r t e _ Hi _ _ _ _ _ _ _ _
       | i g _ Hi _ _ _ _ _ _ _ _
       | i g t e v _ Hi _ _ _ _].
  - by rewrite Hr, Ht, Hg, Hc.
  - simpl in Hreg. rewrite Hck in Hreg. by rewrite bool_decide_eq_false_2 in Hreg.
  - by rewrite Hgs in Hi.
  - by rewrite Hgs in Hi.
  - by rewrite Hgs in Hi.
Qed.

(** X14. A registry made by [New] stays empty until a registration
    succeeds.  Whatever else is called ([Deregister] of unknown names,
    [DeregisterAll], refused registrations, reads), both maps stay
    empty, no goroutine runs, no stop is pending, and [Results] returns
    the empty map with the aggregate healthy. *)
Theorem new_registry_stays_idle (os : list op) :
  forallb (fun o => negb (registers o)) os = true ->
  idle (run os New) /\
  fst (Results (run os New)) = Returned (∅, true) /\
  fst (IsHealthy (run os New)) = Returned true.
Proof.
  intros Hos.
  assert (Hidle : idle (run os New)).
  { assert (H0 : idle New) by done.
    revert H0. generalize New as h.
    induction os as [|o os IH]; intros h Hh; [exact Hh|].
    simpl in Hos. apply andb_true_iff in Hos as [Ho Hos].
    simpl. apply IH; [exact Hos|].
    apply idle_preserved; [by apply negb_true_iff | exact Hh]. }
  split; [exact Hidle|].
  destruct Hidle as (Hres & _).
  unfold Results, IsHealthy, bind, gets, ret. simpl. rewrite Hres. done.
Qed.

Lemma new_registry_stays_idle_witness :
  idle (run run_without_checks New) /\
  fst (Results (run run_without_checks New)) = Returned (∅, true) /\
  fst (IsHealthy (run run_without_checks New)) = Returned true.
Proof.
  apply (new_registry_stays_idle run_without_checks).
  vm_compute. reflexivity.
Defined.

(** X15. A successful [RegisterCheck] tells the checks listener, once,
    that the check was registered, with the very result it has stored;
    it leaves the results of all other names, the tasks of all other
    names, the health listener and the channels alone, and starts one
    goroutine, placed after those that run already. *)
Theorem registration_is_announced_with_stored_result
    (cfg : Config) (now : Time) (h : health) (c : Check) :
  Check_ cfg = Some c ->
  Name c <> "" ->
  exists r task h',
    RegisterCheck cfg now h = (Returned None, h') /\
    results h' !! Name c = Some r /\
    Details r = anyString initialResultMsg /\ Duration r = 0 /\ Timestamp r = now /\
    checksListener h' = checksListener h ++ [OnCheckRegistered (Name c) r] /\
    healthListener h' = healthListener h /\
    fullChans h' = fullChans h /\
    (forall n, n <> Name c ->
       results h' !! n = results h !! n /\ checkTasks h' !! n = checkTasks h !! n) /\
    goroutines h' = goroutines h ++ [mkGoroutine task cfg] /\
    ticker task = None.
Proof.
  intros Hc Hname.
  destruct (RegisterCheck_registers cfg now h c Hc Hname) as (r & Hupd & Hrun).
  destruct (updateResult_fields _ _ _ _ _ _ _ _ Hupd) as (Hd & Hdur & Hts & _).
  eexists r, _, _. split; [exact Hrun|]. simpl.
  split; [apply lookup_insert_eq|]. do 6 (split; [done|]).
  split; [|done]. intros n Hn. by rewrite !lookup_insert_ne.
Qed.

Lemma registration_is_announced_with_stored_result_witness :
  exists r task h',
    RegisterCheck cfgA 100 New = (Returned None, h') /\
    results h' !! "A" = Some r /\
    Details r = anyString initialResultMsg /\ Duration r = 0 /\ Timestamp r = 100 /\
    checksListener h' = [OnCheckRegistered "A" r] /\
    healthListener h' = [] /\
    fullChans h' = ∅ /\
    (forall n, n <> "A" ->
       results h' !! n = results New !! n /\ checkTasks h' !! n = checkTasks New !! n) /\
    goroutines h' = [mkGoroutine task cfgA] /\
    ticker task = None.
Proof.
  apply (registration_is_announced_with_stored_result cfgA 100 New checkA).
  - reflexivity.
  - discriminate.
Defined.

(** X16. Along every run of the program from [New], the result stored
    for a name carries the streak of the outcomes recorded for that name
    since it was last deleted, the initial result of its registration
    included: the name has a result iff that history is not empty,
    [ContiguousFailures] is the length of the failures at the end of the
    history, [TimeOfFirstFailure] the time of the first of them, and the
    error is nil iff there are none. *)
Theorem stored_result_follows_run_history (name : string) (os : list op) :
  let ns := history name os New [] in
  (results (run os New) !! name = None <-> ns = []) /\
  forall r,
    results (run os New) !! name = Some r ->
    ContiguousFailures r = Z.of_nat (length (streak ns)) /\
    TimeOfFirstFailure r = o_time <$> head (streak ns) /\
    (Error r = None <-> streak ns = []).
Proof.
  cbv zeta.
  assert (Hc : carries name (results (run os New)) (history name os New [])).
  { apply run_carries. unfold carries. simpl. by rewrite lookup_empty. }
  unfold carries in Hc.
  destruct (results (run os New) !! name) as [r|].
  - destruct Hc as (Hne & Hcf & Htf & Herr). split; [split; [done | intros Hnil; done]|].
    by intros r' [= <-].
  - split; [done|]. by intros r' Hr'.
Qed.

(** ** Checks are removed on request only *)

Lemma exec_op_fullChans_shrink o h :
  deregisters o = false -> fullChans (exec_op o h) ⊆ fullChans h.
Proof.
  intros Hd c.
  destruct o as [cfg now | name | | | | i sel]; try done; simpl.
  - destruct (Check_ cfg) as [ck|] eqn:Hc.
    + destruct (decide (Name ck = "")) as [Hname|Hname].
      * destruct (RegisterCheck_misconfigured cfg now h) as (e & Hrun); [eauto|].
        unfold after. by rewrite Hrun.
      * destruct (RegisterCheck_registers cfg now h ck Hc Hname) as (r & _ & Hrun).
        unfold after. by rewrite Hrun.
    + destruct (RegisterCheck_misconfigured cfg now h) as (e & Hrun); [eauto|].
      unfold after. by rewrite Hrun.
  - destruct (goroutines h !! i) as [g|] eqn:Hg; [|done].
    destruct sel as [|t [[[details cd] err]|v]].
    + rewrite turn_stop. simpl. set_solver.
    + destruct (turn_timer_returns g t details cd err h)
        as (r & o & h' & _ & Hrun & _ & _ & Hfull & _).
      rewrite Hrun. intros Hc. rewrite <- Hfull.
      by destruct o as [[g'|]|v].
    + by rewrite turn_timer_panics.
Qed.

Lemma step_without_stop_keeps_checks o h :
  fullChans h = ∅ ->
  enabled o h = true ->
  dom (results h) ⊆ dom (results (exec_op o h)) /\
  dom (checkTasks h) ⊆ dom (checkTasks (exec_op o h)).
Proof.
  intros Hfull Hen.
  destruct (exec_op_effect o h)
    as [Hr Ht _ _ _ _ _
       | cfg now c r _ _ _ Hr Ht _ _ _ _
       | i g g' r t e _ _ Hr Ht _ _ _ _ _ _
       | i g -> Hi _ _ _ _ _ _ _ _
       | i g t e v _ _ _ _ Ht Hr].
  - by rewrite Hr, Ht.
  - rewrite Hr, Ht, !dom_insert_L. set_solver.
  - rewrite Hr, Ht, dom_insert_L. set_solver.
  - simpl in Hen. rewrite Hi, Hfull in Hen.
    apply bool_decide_eq_true in Hen. set_solver.
  - rewrite Ht. split; [|done].
    destruct Hr as [-> | (r & ->)]; [done|]. rewrite dom_insert_L. set_solver.
Qed.

(** X17. No check is removed unless a client asked for it.  Along a
    valid run that starts with no stop pending and contains no call of
    [Deregister] or [DeregisterAll], no stop is ever pending, so no
    goroutine can take its stop case, and every name that has a result
    or a task keeps it. *)
Theorem no_removal_without_Deregister (h : health) (os : list op) :
  fullChans h = ∅ ->
  valid_run unguarded os h = true ->
  forallb (fun o => negb (deregisters o)) os = true ->
  fullChans (run os h) = ∅ /\
  (forall i, enabled (opTurn i stopCase) (run os h) = false) /\
  dom (results h) ⊆ dom (results (run os h)) /\
  dom (checkTasks h) ⊆ dom (checkTasks (run os h)).
Proof.
  revert h. induction os as [|o os IH]; intros h Hfull Hvalid Hos.
  - split; [done|]. split; [|done].
    intros i. simpl. destruct (goroutines h !! i); [|done].
    rewrite Hfull. apply bool_decide_eq_false_2. set_solver.
  - simpl in Hvalid. destruct (crashed h); [done|].
    apply andb_true_iff in Hvalid as [Hen Hvalid].
    apply andb_true_iff in Hen as [Hen _].
    simpl in Hos. apply andb_true_iff in Hos as [Ho Hos].
    apply negb_true_iff in Ho.
    assert (Hfull' : fullChans (exec_op o h) = ∅).
    { pose proof (exec_op_fullChans_shrink o h Ho). set_solver. }
    destruct (step_without_stop_keeps_checks o h Hfull Hen) as [Hr Ht].
    destruct (IH (exec_op o h) Hfull' Hvalid Hos) as (Hf & Hstop & Hr' & Ht').
    simpl. split; [done|]. split; [done|]. split; set_solver.
Qed.

Lemma no_removal_without_Deregister_witness :
  fullChans (run run_more_checks executed_A_failing) = ∅ /\
  (forall i, enabled (opTurn i stopCase) (run run_more_checks executed_A_failing) = false) /\
  dom (results executed_A_failing) ⊆ dom (results (run run_more_checks executed_A_failing)) /\
  dom (checkTasks executed_A_failing)
    ⊆ dom (checkTasks (run run_more_checks executed_A_failing)).
Proof.
  apply (no_removal_without_Deregister executed_A_failing run_more_checks).
  - vm_compute. reflexivity.
  - vm_compute. reflexivity.
  - vm_compute. reflexivity.
Defined.
